(** * A shallow embedding of [calc_func.py], the VIX-style volatility index

    The Python module computes, per trading day, a model-free implied
    volatility index from option quotes and a risk-free rate curve.  Every
    function of the module is transcribed below in the order of the source.

    Modelling conventions.
    - A Python/numpy float is an exact rational ([Qc], canonical fractions,
      so equality is Leibniz equality).  Rounding error, infinities and NaN
      are outside the model; statements that involve a quotient carry the
      hypothesis that the divisor is not zero.
    - [np.exp] and [np.sqrt] belong to numpy, not to the module: they are
      Section variables [np_exp] and [np_sqrt].
    - A pandas [Series] is an association list from index label to value, a
      [DataFrame] a list of records, both in row order.
    - Exceptions, [print] and [warnings.warn] are effects of a small monad
      [M]: a log of events together with either an exception or a value. *)

From Stdlib Require Import QArith Qcanon Qround ZArith Ascii Reals Qreals Lia Psatz.
From Stdlib Require Qcabs.
From stdpp Require Import base list gmap strings numbers sorting.

Open Scope Qc_scope.

(** ** Numbers *)

Definition qc (a : Z) (b : positive) : Qc := Q2Qc (a # b).

(** [YEARS = 365] *)
Definition YEARS : Z := 365.

(** Python's [round(x)] with one argument: the nearest integer, a tie going
    to the even neighbour. *)
Definition py_round (x : Qc) : Z :=
  let f := Qfloor x in
  let r := x - Qc_of_Z f in
  if decide (r < qc 1 2) then f
  else if decide (qc 1 2 < r) then (f + 1)%Z
  else if Z.even f then f else (f + 1)%Z.

(** ** Effects: exceptions, printed lines, warnings *)

Inductive exn :=
| ValueError (msg : string)
| IndexError
| KeyError_msg (msg : string)      (* [raise KeyError('...')] *)
| KeyError_label (k : Z)           (* [.loc] on an absent integer label *)
| KeyError_strike (k : Qc)         (* [.loc] on an absent strike *)
| KeyError_column (c : string).    (* [df[c]] on an absent column *)

Inductive event :=
| Print_terms (near_term next_tern : Qc)
| Print_days (near_term_ next_tern_ : Z)
| Print_curve (shibor_ser : gmap Z Qc)
| Warn (F k_min : Qc).

#[global] Instance exn_eq_dec : EqDecision exn.
Proof. solve_decision. Defined.
#[global] Instance event_eq_dec : EqDecision event.
Proof. solve_decision. Defined.

Definition M (A : Type) : Type := list event * (exn + A).

Definition raise {A} (e : exn) : M A := ([], inl e).
Definition emit (ev : event) : M unit := ([ev], inr tt).

#[global] Instance M_ret : MRet M := λ A x, ([], inr x).
#[global] Instance M_bind : MBind M := λ A B f m,
  match m with
  | (w, inl e) => (w, inl e)
  | (w, inr a) => let '(w', r) := f a in (w ++ w', r)
  end.

(** ** The parts of numpy and pandas the module calls *)

(** [Series.unique()]: the distinct values in order of first appearance. *)
Fixpoint unique `{EqDecision A} (l : list A) : list A :=
  match l with
  | [] => []
  | x :: l' => x :: filter (λ y, y ≠ x) (unique l')
  end.

(** [np.sort] on a one-dimensional array of numbers. *)
Definition np_sort (l : list Qc) : list Qc := merge_sort Qcle l.

(** [a[n]] for an integer [n]: a negative index counts from the end, an
    index out of range raises [IndexError]. *)
Definition np_index {A} (a : list A) (n : Z) : M A :=
  let len := Z.of_nat (length a) in
  let i := if decide (n < 0)%Z then (len + n)%Z else n in
  if decide (0 ≤ i < len)%Z then
    match a !! Z.to_nat i with
    | Some x => mret x
    | None => raise IndexError
    end
  else raise IndexError.

(** The first entry of least value in a series, if any. *)
Fixpoint argmin {L} (s : list (L * Qc)) : option (L * Qc) :=
  match s with
  | [] => None
  | (l, x) :: s' =>
      match argmin s' with
      | Some (l', m) => if decide (x ≤ m) then Some (l, x) else Some (l', m)
      | None => Some (l, x)
      end
  end.

(** [Series.idxmin()]: the label of the first occurrence of the minimum;
    [None] stands for the [ValueError] raised on an empty series. *)
Definition idxmin {L} (s : list (L * Qc)) : option L := fst <$> argmin s.

Definition np_sum (a : list Qc) : Qc := foldr Qcplus 0 a.

(** The mean that [pd.pivot_table] takes over the values of one cell. *)
Definition np_mean (a : list Qc) : Qc :=
  np_sum a / Qc_of_Z (Z.of_nat (length a)).

Definition Qcmin (x y : Qc) : Qc := if decide (x ≤ y) then x else y.
Definition Qcmax (x y : Qc) : Qc := if decide (x ≤ y) then y else x.

(** [np.min] and [np.max]; both raise [ValueError] on an empty array. *)
Definition np_min (a : list Qc) : M Qc :=
  match a with
  | [] => raise (ValueError "zero-size array to reduction operation minimum")
  | x :: a' => mret (foldr Qcmin x a')
  end.

Definition np_max (a : list Qc) : M Qc :=
  match a with
  | [] => raise (ValueError "zero-size array to reduction operation maximum")
  | x :: a' => mret (foldr Qcmax x a')
  end.

(** Elementwise arithmetic on one-dimensional arrays with numpy's
    broadcasting: equal lengths, or one operand of length one. *)
Definition broadcast (op : Qc → Qc → Qc) (a b : list Qc) : M (list Qc) :=
  if decide (length a = length b) then mret (zip_with op a b)
  else match a, b with
       | [x], _ => mret (op x <$> b)
       | _, [y] => mret ((λ x, op x y) <$> a)
       | _, _ => raise (ValueError "operands could not be broadcast together")
       end.

(** [Series.sort_index()] *)
Definition key_le (a b : Qc * Qc) : Prop := a.1 ≤ b.1.

#[global] Instance key_le_dec : RelDecision key_le.
Proof. intros a b. unfold key_le. apply _. Defined.

Definition sort_index (s : list (Qc * Qc)) : list (Qc * Qc) :=
  merge_sort key_le s.

(** [s[k] = v] on a series: overwrite the entry of label [k], or append a
    new one. *)
Fixpoint series_set (s : list (Qc * Qc)) (k v : Qc) : list (Qc * Qc) :=
  match s with
  | [] => [(k, v)]
  | (k', v') :: s' =>
      if decide (k' = k) then (k, v) :: s' else (k', v') :: series_set s' k v
  end.

(** [df.groupby(key)]: the groups in ascending order of the key, each with
    its rows in their original order. *)
Definition groupby {A} (key : A → Z) (df : list A) : list (Z * list A) :=
  (λ d, (d, filter (λ q, key q = d) df)) <$> merge_sort Z.le (unique (key <$> df)).

(** [s.loc[d]] on a date-indexed series. *)
Definition date_loc {A} (s : list (Z * A)) (d : Z) : M A :=
  match list_find (λ p, p.1 = d) s with
  | Some (_, (_, x)) => mret x
  | None => raise (KeyError_label d)
  end.

(** ** The data *)

Inductive option_type := Call | Put.

#[global] Instance option_type_eq_dec : EqDecision option_type.
Proof. solve_decision. Defined.

(** One row of the option table. *)
Record quote := {
  date : Z;
  exercise_date : Z;
  close : Qc;
  contract_type : option_type;
  exercise_price : Qc;
  maturity : Qc
}.

(** One row of the table [prepare_data2calc] returns. *)
Record enriched := {
  base : quote;
  near_maturity : Qc;
  next_maturity : Qc;
  near_rate : Qc;
  next_rate : Qc
}.

(** One row of the pivot table: the index level [exercise_price] and the
    columns [call], [put], [diff]; [None] is NaN. *)
Record pivot_row := {
  pv_strike : Qc;
  pv_call : option Qc;
  pv_put : option Qc;
  pv_diff : option Qc
}.

(** A row of the strike matrix once [dropna] has been applied. *)
Record strike_row := {
  strike : Qc;
  call : Qc;
  put : Qc;
  diff : Qc
}.

#[global] Instance quote_eq_dec : EqDecision quote.
Proof. solve_decision. Defined.
#[global] Instance enriched_eq_dec : EqDecision enriched.
Proof. solve_decision. Defined.
#[global] Instance strike_row_eq_dec : EqDecision strike_row.
Proof. solve_decision. Defined.

(** ** [_get_near_or_next_options] *)

Definition _get_near_or_next_options (df : list quote) (n : Z) (filter_num : Z)
  : M (list quote) :=
  let df := filter (λ q, Qc_of_Z filter_num / Qc_of_Z YEARS ≤ maturity q) df in
  bound ← np_index (np_sort (unique (maturity <$> df))) n;
  mret (filter (λ q, maturity q ≤ bound) df).

(** ** [_build_strike_matrix] *)

(** The cell of [pd.pivot_table(df, index='exercise_price',
    columns='contract_type', values='close')] at strike [k] and column [t]:
    the mean of the matching closes, NaN when there is none. *)
Definition pivot_cell (df : list quote) (k : Qc) (t : option_type) : option Qc :=
  let xs := close <$> filter (λ q, exercise_price q = k ∧ contract_type q = t) df in
  if decide (xs = []) then None else Some (np_mean xs).

Definition _build_strike_matrix (df : list quote) : M (list pivot_row) :=
  let index := np_sort (unique (exercise_price <$> df)) in
  if decide (filter (λ q, contract_type q = Call) df = [])
  then raise (KeyError_column "call")
  else if decide (filter (λ q, contract_type q = Put) df = [])
  then raise (KeyError_column "put")
  else mret ((λ k,
         let c := pivot_cell df k Call in
         let p := pivot_cell df k Put in
         {| pv_strike := k; pv_call := c; pv_put := p;
            pv_diff := c' ← c; p' ← p; Some (c' - p') |}) <$> index).

(** [DataFrame.dropna()] *)
Definition dropna (matrix : list pivot_row) : list strike_row :=
  omap (λ r, c ← pv_call r; p ← pv_put r; d ← pv_diff r;
             Some {| strike := pv_strike r; call := c; put := p; diff := d |})
       matrix.

(** ** [_get_min_strike_diff] *)

Definition _get_min_strike_diff (strike_matrix : list strike_row) : M strike_row :=
  let df_ := imap (λ i r, (i, r)) strike_matrix in
  match idxmin ((λ p, (p.1, Qcabs.Qcabs (diff p.2))) <$> df_) with
  | None => raise (ValueError "attempt to get argmin of an empty sequence")
  | Some min_idx =>
      match df_ !! min_idx with
      | Some (_, r) => mret r
      | None => raise (KeyError_label (Z.of_nat min_idx))
      end
  end.

(** ** [calc_delta_k_table] *)

(** [a[start:start+len(v)] = v] *)
Definition set_slice (a : list Qc) (start : nat) (v : list Qc) : list Qc :=
  take start a ++ v ++ drop (start + length v) a.

Definition calc_delta_k_table (strike_matrix : list (Qc * Qc)) : M (list (Qc * Qc)) :=
  let exercise_price := strike_matrix.*1 in
  let size := length exercise_price in
  let diff_ser := replicate size 0 in
  e0 ← np_index exercise_price 0;
  e1 ← np_index exercise_price 1;
  let diff_ser := <[0%nat := e1 - e0]> diff_ser in
  let diff_ser :=
    set_slice diff_ser 1
      (zip_with (λ a b, qc 1 2 * (a - b))
                (drop 2 exercise_price) (take (size - 2) exercise_price)) in
  el ← np_index exercise_price (-1);
  el2 ← np_index exercise_price (-2);
  let diff_ser := <[(size - 1)%nat := el - el2]> diff_ser in
  mret (zip exercise_price diff_ser).

(** ** [_get_median_price_table] *)

(** [strike_matrix.loc[k, col]] *)
Definition strike_loc (strike_matrix : list strike_row) (k : Qc)
    (col : strike_row → Qc) : M Qc :=
  match list_find (λ r, strike r = k) strike_matrix with
  | Some (_, r) => mret (col r)
  | None => raise (KeyError_strike k)
  end.

Definition _get_median_price_table (strike_matrix : list strike_row) (F : Qc)
  : M (list (Qc * Qc) * Qc) :=
  let K_cond1 := λ r, strike r < F in
  '(K_0, empty_put) ←
     match idxmin ((λ r, (strike r, diff r)) <$> filter K_cond1 strike_matrix) with
     | Some K_0 => mret (K_0, false)
     | None =>
         r0 ← np_index strike_matrix 0;
         _ ← emit (Warn F (strike r0));
         mret (F, true)
     end;
  let call_ser :=
    (λ r, (strike r, call r)) <$> filter (λ r, K_0 < strike r) strike_matrix in
  if negb empty_put then
    let put_ser :=
      (λ r, (strike r, put r)) <$> filter (λ r, strike r < K_0) strike_matrix in
    c ← strike_loc strike_matrix K_0 call;
    p ← strike_loc strike_matrix K_0 put;
    let median := (c + p) * qc 1 2 in
    let put_ser := series_set put_ser K_0 median in
    let all_ser := put_ser ++ call_ser in
    mret (sort_index all_ser, K_0)
  else
    let all_ser := call_ser in
    mret (sort_index all_ser, K_0).

(** ** [_get_free_rate] *)

Definition curve_loc (shibor_ser : gmap Z Qc) (k : Z) : M Qc :=
  match shibor_ser !! k with
  | Some r => mret r
  | None => raise (KeyError_label k)
  end.

Definition _get_free_rate (shibor_ser : gmap Z Qc) (near_term next_tern : Qc)
  : M (Qc * Qc) :=
  let near_term_ := Z.max (py_round (near_term * Qc_of_Z YEARS)) 1 in
  let next_tern_ := py_round (next_tern * Qc_of_Z YEARS) in
  _ ← match shibor_ser !! near_term_ with
      | Some _ => mret tt
      | None =>
          _ ← emit (Print_terms near_term next_tern);
          _ ← emit (Print_days near_term_ next_tern_);
          _ ← emit (Print_curve shibor_ser);
          raise (KeyError_msg "无对应的shibor!")
      end;
  a ← curve_loc shibor_ser near_term_;
  b ← curve_loc shibor_ser next_tern_;
  mret (a, b).

(** ** The formulas and the per-day pipeline *)

Definition lower_ascii (c : ascii) : ascii :=
  let n := nat_of_ascii c in
  if decide (65 ≤ n ≤ 90)%nat then ascii_of_nat (n + 32) else c.

(** [str.lower()] *)
Fixpoint lower (s : string) : string :=
  match s with
  | EmptyString => EmptyString
  | String c s' => String (lower_ascii c) (lower s')
  end.

(** [df[name]] for the four columns [_get_sigma] reads by name. *)
Definition column (name : string) (q : enriched) : M Qc :=
  if decide (name = "near_maturity") then mret (near_maturity q)
  else if decide (name = "next_maturity") then mret (next_maturity q)
  else if decide (name = "near_rate") then mret (near_rate q)
  else if decide (name = "next_rate") then mret (next_rate q)
  else raise (KeyError_column name).

(** The dictionary [_get_sigma] returns, one field per key. *)
Record sigma_variable := {
  sv_strike_matrix : list strike_row;
  sv_median_table : list (Qc * Qc);
  sv_delta_k : list (Qc * Qc);
  sv_F : Qc;
  sv_K0 : Qc;
  sv_term : Qc;
  sv_term_rate : Qc;
  sv_sigma : Qc
}.

(** The named tuple [Variable] that [get_daily_vix] returns; every field but
    [vix] is a dictionary with the keys ['near'] and ['next']. *)
Record Variable_ := {
  v_strike_matrix : gmap string (list strike_row);
  v_F : gmap string Qc;
  v_K : gmap string Qc;
  v_median_table : gmap string (list (Qc * Qc));
  v_delta_k : gmap string (list (Qc * Qc));
  v_sigma : gmap string Qc;
  v_rate : gmap string Qc;
  v_term : gmap string Qc;
  v_vix : Qc
}.

Section Formulas.

Variable np_exp : Qc → Qc.
Variable np_sqrt : Qc → Qc.

Definition calc_F (K R T C P : Qc) : Qc :=
  K + np_exp (R * T) * (C - P).

Definition calc_sigma (K_0 : Qc) (K delta_K Q_K : list Qc) (F R T : Qc) : M Qc :=
  a ← broadcast Qcdiv delta_K ((λ k, k ^ 2) <$> K);
  let b := (λ x, x * np_exp (R * T)) <$> a in
  c ← broadcast Qcmult b Q_K;
  mret ((Qc_of_Z 2 / T) * np_sum c - (1 / T) * (F / K_0 - 1) ^ 2).

Definition calc_weight (t1 t2 : Qc) : Qc :=
  let t30 := Qc_of_Z 30 / Qc_of_Z YEARS in
  (t2 - t30) / (t2 - t1).

Definition calc_vix (near_sigma next_sigma near_term next_term : Qc) : Qc :=
  let weight := calc_weight near_term next_term in
  np_sqrt ((near_term * near_sigma * weight + next_term * next_sigma * (1 - weight))
           * (Qc_of_Z YEARS / Qc_of_Z 30)).

Definition _get_sigma (df : list enriched) (method : option string)
  : M sigma_variable :=
  match method with
  | None => raise (ValueError "method参数不能为空")
  | Some method =>
      let method := lower method in
      if decide (method ∉ ["near"; "next"]) then
        raise (ValueError "method参数必须为near或者next")
      else
        matrix ← _build_strike_matrix (base <$> df);
        let strike_matrix := dropna matrix in
        strike_row ← _get_min_strike_diff strike_matrix;
        maturities ← mapM (column (method +:+ "_maturity")) df;
        term ← np_index maturities 0;
        rates ← mapM (column (method +:+ "_rate")) df;
        term_rate ← np_index rates 0;
        let F := calc_F (strike strike_row) term_rate term
                        (call strike_row) (put strike_row) in
        '(median_table, K_0) ← _get_median_price_table strike_matrix F;
        delta_k ← calc_delta_k_table median_table;
        sigma ← calc_sigma K_0 median_table.*1 delta_k.*2 median_table.*2
                           F term_rate term;
        mret {| sv_strike_matrix := strike_matrix;
                sv_median_table := median_table;
                sv_delta_k := delta_k;
                sv_F := F;
                sv_K0 := K_0;
                sv_term := term;
                sv_term_rate := term_rate;
                sv_sigma := sigma |}
  end.

Definition get_daily_vix (df : list enriched) : M Variable_ :=
  let near_df := filter (λ q, maturity (base q) = near_maturity q) df in
  near_sigma_variable ← _get_sigma near_df (Some "near");
  let next_df := filter (λ q, maturity (base q) = next_maturity q) df in
  next_sigma_variable ← _get_sigma next_df (Some "next");
  let vix := calc_vix (sv_sigma near_sigma_variable) (sv_sigma next_sigma_variable)
                      (sv_term near_sigma_variable) (sv_term next_sigma_variable) in
  let strike_matrix : gmap string _ :=
    {[ "near" := sv_strike_matrix near_sigma_variable;
       "next" := sv_strike_matrix near_sigma_variable ]} in
  let F : gmap string _ :=
    {[ "near" := sv_F near_sigma_variable; "next" := sv_F near_sigma_variable ]} in
  let K : gmap string _ :=
    {[ "near" := sv_K0 near_sigma_variable; "next" := sv_K0 near_sigma_variable ]} in
  let median_table : gmap string _ :=
    {[ "near" := sv_median_table near_sigma_variable;
       "next" := sv_median_table near_sigma_variable ]} in
  let delta_k : gmap string _ :=
    {[ "near" := sv_delta_k near_sigma_variable;
       "next" := sv_delta_k near_sigma_variable ]} in
  let sigma : gmap string _ :=
    {[ "near" := sv_sigma near_sigma_variable;
       "next" := sv_sigma near_sigma_variable ]} in
  let rate : gmap string _ :=
    {[ "near" := sv_term_rate near_sigma_variable;
       "next" := sv_term_rate near_sigma_variable ]} in
  let term : gmap string _ :=
    {[ "near" := sv_term near_sigma_variable;
       "next" := sv_term near_sigma_variable ]} in
  mret {| v_strike_matrix := strike_matrix; v_F := F; v_K := K;
          v_median_table := median_table; v_delta_k := delta_k;
          v_sigma := sigma; v_rate := rate; v_term := term; v_vix := vix |}.

End Formulas.

(** ** [prepare_data2calc]

    The option table is not empty.  Rows are listed day by day, in
    ascending order of the date; the merge of step 3 pairs every surviving
    quote with the row of its date, and both sides of the merge have the
    same dates. *)

Definition prepare_data2calc (opt_data : list quote)
    (shibor_data : gmap Z (gmap Z Qc)) : M (list enriched) :=
  (* step 1 *)
  groups ← mapM (λ g, _get_near_or_next_options g.2 1 7) (groupby date opt_data);
  let filter_opt_data := concat groups in
  let maturity_ser :=
    (λ g, (g.1, unique (maturity <$> g.2))) <$> groupby date filter_opt_data in
  (* step 2 *)
  shibor_data ← mapM (λ d, match shibor_data !! d with
                           | Some x => mret (d, x)
                           | None => raise (KeyError_label d)
                           end) maturity_ser.*1;
  sel_rate ← mapM (λ x, m1 ← date_loc maturity_ser x.1;
                        near ← np_min m1;
                        m2 ← date_loc maturity_ser x.1;
                        next ← np_max m2;
                        r ← _get_free_rate x.2 near next;
                        mret (x.1, r)) shibor_data;
  (* step 3 *)
  df ← mapM (λ m, rates ← date_loc sel_rate m.1;
                  near_maturity ← np_min m.2;
                  next_maturity ← np_max m.2;
                  near_rate ← np_min [rates.1; rates.2];
                  next_rate ← np_max [rates.1; rates.2];
                  mret (m.1, (near_maturity, next_maturity, near_rate, next_rate)))
            maturity_ser;
  mret (q ← filter_opt_data;
        '(_, (_, (a, b, c, d))) ← option_list (list_find (λ r, r.1 = date q) df);
        [ {| base := q; near_maturity := a; next_maturity := b;
             near_rate := c; next_rate := d |} ]).

(** * Reference definitions and sample data

    The definitions of this part are not transcribed from the module: they
    state the properties that the theorems compare the code with, and give
    the concrete inputs at which the code is evaluated. *)

(** ** The variance formula as a sum over indices *)

(** [sum_upto n f] is the sum of [f 0], ..., [f (n - 1)]. *)
Fixpoint sum_upto (n : nat) (f : nat → Qc) : Qc :=
  match n with
  | O => 0
  | S n' => sum_upto n' f + f n'
  end.

Definition sigma_formula (e : Qc → Qc) (K_0 : Qc) (K delta_K Q_K : list Qc)
    (F R T : Qc) : Qc :=
  Qc_of_Z 2 / T *
    sum_upto (length K)
      (λ i, nth i delta_K 0 / (nth i K 0) ^ 2 * e (R * T) * nth i Q_K 0)
  - 1 / T * (F / K_0 - 1) ^ 2.

(** Stand-ins for [np.exp] and [np.sqrt] at which the pipeline is run on
    concrete inputs: the second-order Taylor polynomial of the exponential,
    and the identity in place of the square root (the index value itself is
    not examined on the sample inputs). *)
Definition sample_exp (x : Qc) : Qc := 1 + x + x * x * qc 1 2.
Definition sample_sqrt (x : Qc) : Qc := x.

(** ** Sample inputs *)

(** A call and a put quoted on day [d] at strike [k] and maturity [m]. *)
Definition pair_of_quotes (d : Z) (m k c p : Qc) : list quote :=
  [ {| date := d; exercise_date := 0; close := c; contract_type := Call;
       exercise_price := k; maturity := m |};
    {| date := d; exercise_date := 0; close := p; contract_type := Put;
       exercise_price := k; maturity := m |} ].

(** Day 1: three strikes expiring in 10 days, two strikes expiring in 40
    days, one strike expiring in 70 days and one expiring in 3 days. *)
Definition day1 : list quote :=
  pair_of_quotes 1 (qc 10 365) (qc 23 10) (qc 1225 10000) (qc 969 10000) ++
  pair_of_quotes 1 (qc 10 365) (qc 235 100) (qc 942 10000) (qc 1268 10000) ++
  pair_of_quotes 1 (qc 10 365) (qc 24 10) (qc 735 10000) (qc 1542 10000) ++
  pair_of_quotes 1 (qc 40 365) (qc 235 100) (qc 1500 10000) (qc 1100 10000) ++
  pair_of_quotes 1 (qc 40 365) (qc 24 10) (qc 1200 10000) (qc 1400 10000) ++
  pair_of_quotes 1 (qc 70 365) (qc 235 100) (qc 1200 10000) (qc 1400 10000) ++
  pair_of_quotes 1 (qc 3 365) (qc 235 100) (qc 1200 10000) (qc 1400 10000).

(** Day 2: every quote expires in 20 days. *)
Definition day2 : list quote :=
  pair_of_quotes 2 (qc 20 365) (qc 23 10) (qc 1225 10000) (qc 969 10000) ++
  pair_of_quotes 2 (qc 20 365) (qc 235 100) (qc 942 10000) (qc 1268 10000).

(** Day 3: every quote expires in 3 days. *)
Definition day3 : list quote :=
  pair_of_quotes 3 (qc 3 365) (qc 23 10) (qc 1225 10000) (qc 969 10000).

(** A rising curve and an inverted one, quoted at 10 and 40 days. *)
Definition rising_curve : gmap Z Qc := {[ 10%Z := qc 3 100; 40%Z := qc 5 100 ]}.
Definition inverted_curve : gmap Z Qc := {[ 10%Z := qc 5 100; 40%Z := qc 3 100 ]}.

(** A curve quoted at 7 days only. *)
Definition week_curve : gmap Z Qc := {[ 7%Z := qc 3 100 ]}.

(** The rows that survive on day 1 (maturities of 10 and 40 days), enriched
    with the two maturities and with a near and a next rate. *)
Definition enrich (near_rate next_rate : Qc) (q : quote) : enriched :=
  {| base := q; near_maturity := qc 10 365; next_maturity := qc 40 365;
     near_rate := near_rate; next_rate := next_rate |}.

Definition day1_table : list enriched :=
  enrich (qc 3 100) (qc 5 100) <$> take 10 day1.

(** What [_get_sigma] computes from the near-term rows and from the
    next-term rows of [day1_table]. *)
Definition day1_near : M sigma_variable :=
  _get_sigma sample_exp
    (filter (λ q, maturity (base q) = near_maturity q) day1_table) (Some "near").

Definition day1_next : M sigma_variable :=
  _get_sigma sample_exp
    (filter (λ q, maturity (base q) = next_maturity q) day1_table) (Some "next").

(** ** The n-th smallest distinct value of a column *)

(** [v] occurs in [xs] and exactly [n] distinct values of [xs] are smaller. *)
Definition nth_smallest_distinct (xs : list Qc) (n : nat) (v : Qc) : Prop :=
  v ∈ xs ∧
  ∃ below, NoDup below ∧ length below = n ∧ ∀ x, x ∈ below ↔ x ∈ xs ∧ x < v.

(** ** Strike matrices *)

(** The index of a strike matrix is strictly ascending. *)
Definition strike_lt (a b : strike_row) : Prop := strike a < strike b.

Definition sorted_by_strike (strike_matrix : list strike_row) : Prop :=
  StronglySorted strike_lt strike_matrix.

(** The mid-quote of a row relative to [K_0]: the put below [K_0], the call
    above it, the mean of the two at [K_0]. *)
Definition mid_quote (K_0 : Qc) (r : strike_row) : Qc * Qc :=
  (strike r,
   if decide (strike r < K_0) then put r
   else if decide (K_0 < strike r) then call r
   else (call r + put r) / Qc_of_Z 2).

(** The three strikes of the forward-price scenario, quoted 30 days before
    expiry, and the strike matrix they make. *)
Definition scenario_quotes : list quote :=
  pair_of_quotes 1 (qc 30 365) (qc 23 10) (qc 1225 10000) (qc 969 10000) ++
  pair_of_quotes 1 (qc 30 365) (qc 235 100) (qc 942 10000) (qc 1268 10000) ++
  pair_of_quotes 1 (qc 30 365) (qc 24 10) (qc 735 10000) (qc 1542 10000).

Definition scenario_anchor : strike_row :=
  {| strike := qc 23 10; call := qc 1225 10000; put := qc 969 10000;
     diff := qc 256 10000 |}.

Definition scenario_matrix : list strike_row :=
  [ scenario_anchor;
    {| strike := qc 235 100; call := qc 942 10000; put := qc 1268 10000;
       diff := qc (-326) 10000 |};
    {| strike := qc 24 10; call := qc 735 10000; put := qc 1542 10000;
       diff := qc (-807) 10000 |} ].

(** Two strike matrices on which the choice of [K_0] is visible: in the
    first the smaller strike has the lower call-minus-put difference and the
    larger strike the difference closer to zero; in the second the two
    differences are equal. *)
Definition skewed_matrix : list strike_row :=
  [ {| strike := 1; call := qc 1 10; put := qc 5 10; diff := qc (-4) 10 |};
    {| strike := 2; call := qc 3 10; put := qc 3 10; diff := 0 |} ].

Definition tied_matrix : list strike_row :=
  [ {| strike := 1; call := qc 6 10; put := qc 5 10; diff := qc 1 10 |};
    {| strike := 2; call := qc 4 10; put := qc 3 10; diff := qc 1 10 |} ].

(** The claimed choice of [K_0]: among the strikes below [F] one that
    minimizes [|diff|], the largest such strike on ties; [F] itself when no
    strike lies below [F]. *)
Definition claimed_K0 (strike_matrix : list strike_row) (F K_0 : Qc) : Prop :=
  (∃ row, row ∈ strike_matrix ∧ strike row = K_0 ∧ K_0 < F
          ∧ ∀ r, r ∈ strike_matrix → strike r < F →
                 Qcabs.Qcabs (diff row) ≤ Qcabs.Qcabs (diff r)
                 ∧ (Qcabs.Qcabs (diff r) = Qcabs.Qcabs (diff row) →
                    strike r ≤ K_0))
  ∨ ((∀ r, r ∈ strike_matrix → ¬ strike r < F) ∧ K_0 = F).

(** The choice of [K_0] that the code makes: among the strikes below [F]
    one of least [diff] (call minus put, signed), the smallest such strike
    on ties; [F] itself when no strike lies below [F]. *)
Definition least_diff_K0 (strike_matrix : list strike_row) (F K_0 : Qc) : Prop :=
  (∃ row, row ∈ strike_matrix ∧ strike row = K_0 ∧ K_0 < F
          ∧ ∀ r, r ∈ strike_matrix → strike r < F →
                 diff row ≤ diff r ∧ (diff r = diff row → K_0 ≤ strike r))
  ∨ ((∀ r, r ∈ strike_matrix → ¬ strike r < F) ∧ K_0 = F).

(** ** Strike-spacing weights *)

(** The weight of position [i] in a strike sequence [K] of length [n]:
    [K_1 - K_0] at the first position, [K_(n-1) - K_(n-2)] at the last, half
    the distance between the two neighbours in between. *)
Definition delta_k_weight (K : list Qc) (i : nat) : Qc :=
  if decide (i = 0%nat) then nth 1 K 0 - nth 0 K 0
  else if decide (i = (length K - 1)%nat)
       then nth (length K - 1) K 0 - nth (length K - 2) K 0
       else qc 1 2 * (nth (i + 1) K 0 - nth (i - 1) K 0).

(** A mid-quote table on the strikes 2.3, 2.35, 2.4, 2.5. *)
Definition sample_table : list (Qc * Qc) :=
  [ (qc 23 10, qc 969 10000); (qc 235 100, qc 1105 10000);
    (qc 24 10, qc 735 10000); (qc 25 10, qc 500 10000) ].

(** ** Quotes by strike and leg *)

(** The closing prices quoted in [df] for the leg [t] at the strike [k]. *)
Definition closes_at (df : list quote) (k : Qc) (t : option_type) : list Qc :=
  close <$> filter (λ q, exercise_price q = k ∧ contract_type q = t) df.

(** Three quotes of one day without a strike that carries both legs:
    calls at 2.3 and 2.4, a put at 2.35. *)
Definition unpaired_quotes : list quote :=
  [ {| date := 1; exercise_date := 0; close := qc 1225 10000;
       contract_type := Call; exercise_price := qc 23 10;
       maturity := qc 10 365 |};
    {| date := 1; exercise_date := 0; close := qc 1268 10000;
       contract_type := Put; exercise_price := qc 235 100;
       maturity := qc 10 365 |};
    {| date := 1; exercise_date := 0; close := qc 735 10000;
       contract_type := Call; exercise_price := qc 24 10;
       maturity := qc 10 365 |} ].

(** The same strike quoted twice as a call (0.10 and 0.14) and once as a
    put (0.08). *)
Definition repeated_quotes : list quote :=
  [ {| date := 1; exercise_date := 0; close := qc 10 100;
       contract_type := Call; exercise_price := qc 23 10;
       maturity := qc 10 365 |};
    {| date := 1; exercise_date := 0; close := qc 8 100;
       contract_type := Put; exercise_price := qc 23 10;
       maturity := qc 10 365 |};
    {| date := 1; exercise_date := 0; close := qc 14 100;
       contract_type := Call; exercise_price := qc 23 10;
       maturity := qc 10 365 |} ].

(** ** The columns [_get_sigma] reads for a method *)

(** The maturity and the rate column named by the method: ['near'] once
    lower-cased, or else ['next']. *)
Definition term_column (method : string) (q : enriched) : Qc :=
  if decide (lower method = "near") then near_maturity q else next_maturity q.

Definition rate_column (method : string) (q : enriched) : Qc :=
  if decide (lower method = "near") then near_rate q else next_rate q.

(** The first row of [day1_table]: the call struck at 2.30 that expires in
    10 days. *)
Definition day1_row : enriched :=
  enrich (qc 3 100) (qc 5 100)
    {| date := 1; exercise_date := 0; close := qc 1225 10000;
       contract_type := Call; exercise_price := qc 23 10;
       maturity := qc 10 365 |}.

(** One trading day, 10 days before expiry, on which the quotes at the
    strike 2.25 are out of line with the other two: call minus put is -0.01
    at 2.25, 0.002 at 2.30 and -0.05 at 2.35.  [stale_rows] are the quotes as
    [_get_sigma] receives them for the near term (near rate 3%), and
    [stale_matrix] is the strike matrix they make. *)
Definition stale_quotes : list quote :=
  pair_of_quotes 1 (qc 10 365) (qc 225 100) (qc 700 10000) (qc 800 10000) ++
  pair_of_quotes 1 (qc 10 365) (qc 230 100) (qc 520 10000) (qc 500 10000) ++
  pair_of_quotes 1 (qc 10 365) (qc 235 100) (qc 300 10000) (qc 800 10000).

Definition stale_rows : list enriched :=
  enrich (qc 3 100) (qc 5 100) <$> stale_quotes.

Definition stale_low : strike_row :=
  {| strike := qc 225 100; call := qc 700 10000; put := qc 800 10000;
     diff := qc (-100) 10000 |}.

Definition stale_anchor : strike_row :=
  {| strike := qc 230 100; call := qc 520 10000; put := qc 500 10000;
     diff := qc 20 10000 |}.

Definition stale_high : strike_row :=
  {| strike := qc 235 100; call := qc 300 10000; put := qc 800 10000;
     diff := qc (-500) 10000 |}.

Definition stale_matrix : list strike_row :=
  [ stale_low; stale_anchor; stale_high ].

(** * Properties of the module *)

(** ** Arithmetic on [Qc] *)

Lemma Qc_eq_Qeq (a b : Qc) : a = b → (this a == this b)%Q.
Proof. intros ->. reflexivity. Qed.

(** Moves a goal and the hypotheses on [Qc] to the underlying fractions,
    where [lra] and [nra] apply. *)
Ltac qc2q :=
  try apply Qc_is_canon;
  repeat match goal with
         | H : @eq Qc _ _ |- _ => apply Qc_eq_Qeq in H
         end;
  unfold Qcle, Qclt, Qcdiv, Qcminus, Qcplus, Qcmult, Qcopp, Qcinv, qc, Q2Qc,
    Qc_of_Z, inject_Z in *;
  cbn [this] in *;
  repeat (setoid_rewrite Qred_correct);
  repeat match goal with
         | H : _ |- _ => progress (setoid_rewrite Qred_correct in H)
         end.

Lemma Qc_of_Z_qc (n : Z) : Qc_of_Z n = qc n 1.
Proof. qc2q. reflexivity. Qed.

Lemma Qcmult_half (x : Qc) : x * qc 1 2 = x / Qc_of_Z 2.
Proof. unfold Qcdiv. f_equal; apply Qc_is_canon; reflexivity. Qed.

(** ** The index blender: [calc_weight] and [calc_vix] *)

Lemma calc_weight_times (t1 t2 : Qc) :
  t1 < t2 → calc_weight t1 t2 * (t2 - t1) = t2 - qc 30 365.
Proof.
  intros Hlt. unfold calc_weight, YEARS. rewrite !Qc_of_Z_qc.
  assert (t2 - t1 ≠ 0) as Hne.
  { intros Heq. qc2q. lra. }
  transitivity (t2 - qc 30 1 / qc 365 1); [field; split; [discriminate|exact Hne]|].
  f_equal; try (apply Qc_is_canon; reflexivity).
Qed.

(** C9. For year-fractions [T1 < T2] the blender computes
    [weight = (T2 - 30/365) / (T2 - T1)] and returns
    [sqrt ((T1*sigma1*weight + T2*sigma2*(1 - weight)) * (365/30))]: nothing
    rescales the result by 100 and nothing clamps the weight, which is
    negative when the next term is shorter than 30 days and exceeds one when
    the near term is longer than 30 days; it lies in [0,1] exactly when
    30/365 lies between the two terms. *)
Theorem calc_vix_blend (np_sqrt : Qc → Qc) (sigma1 sigma2 T1 T2 : Qc) :
  T1 < T2 →
  let weight := (T2 - Qc_of_Z 30 / Qc_of_Z 365) / (T2 - T1) in
  calc_weight T1 T2 = weight
  ∧ calc_vix np_sqrt sigma1 sigma2 T1 T2
    = np_sqrt ((T1 * sigma1 * weight + T2 * sigma2 * (1 - weight))
               * (Qc_of_Z 365 / Qc_of_Z 30))
  ∧ (T2 < qc 30 365 → weight < 0)
  ∧ (qc 30 365 < T1 → 1 < weight)
  ∧ (0 ≤ weight ≤ 1 ↔ T1 ≤ qc 30 365 ≤ T2).
Proof.
  intros Hlt weight.
  assert (calc_weight T1 T2 = weight) as Hw by reflexivity.
  pose proof (calc_weight_times T1 T2 Hlt) as Hmul. rewrite Hw in Hmul.
  clearbody weight.
  split; [exact Hw|]. split; [unfold calc_vix; rewrite Hw; reflexivity|].
  clear Hw. repeat split; intros; qc2q; nra.
Qed.

(** At [T1 = 40/365] and [T2 = 70/365] the weight is [4/3]. *)
Lemma calc_vix_blend_witness :
  calc_weight (qc 40 365) (qc 70 365) = qc 4 3
  ∧ 1 < calc_weight (qc 40 365) (qc 70 365).
Proof.
  destruct (calc_vix_blend sample_sqrt (qc 4 100) (qc 6 100) (qc 40 365) (qc 70 365))
    as (Hw & _ & _ & Hgt & _).
  - reflexivity.
  - split.
    + rewrite Hw. apply Qc_is_canon. reflexivity.
    + rewrite Hw. apply Hgt. reflexivity.
Defined.

(** ** The monad [M] *)

Lemma M_bind_ret {A B} (x : A) (f : A → M B) : (mret x ≫= f) = f x.
Proof. unfold mret, mbind, M_ret, M_bind. destruct (f x). reflexivity. Qed.

Lemma M_bind_inr {A B} (m : M A) (f : A → M B) w (y : B) :
  (m ≫= f) = (w, inr y) →
  ∃ w1 w2 x, m = (w1, inr x) ∧ f x = (w2, inr y) ∧ w = w1 ++ w2.
Proof.
  unfold mbind, M_bind. destruct m as [w1 [e|x]]; [discriminate|].
  destruct (f x) as [w2 r] eqn:Hf. intros [= <- ->]. eauto 6.
Qed.

(** ** The variance estimator: [calc_sigma] *)

Lemma broadcast_same_length op (a b : list Qc) :
  length a = length b → broadcast op a b = mret (zip_with op a b).
Proof. intros Hlen. unfold broadcast. rewrite decide_True; done. Qed.

Lemma sum_upto_S n f : sum_upto (S n) f = f O + sum_upto n (λ i, f (S i)).
Proof.
  induction n as [|n IH].
  - simpl. ring.
  - change (sum_upto (S (S n)) f) with (sum_upto (S n) f + f (S n)).
    rewrite IH. simpl. ring.
Qed.

Lemma np_sum_terms (e : Qc) (K delta_K Q_K : list Qc) :
  length delta_K = length K → length Q_K = length K →
  np_sum (zip_with Qcmult
            ((λ x, x * e) <$> zip_with Qcdiv delta_K ((λ k, k ^ 2) <$> K)) Q_K)
  = sum_upto (length K)
      (λ i, nth i delta_K 0 / (nth i K 0) ^ 2 * e * nth i Q_K 0).
Proof.
  revert delta_K Q_K.
  induction K as [|k K IH]; intros [|d delta_K] [|q Q_K] Hd Hq;
    simpl in Hd, Hq; simplify_eq; [done|].
  cbn [length]. rewrite sum_upto_S. cbn [nth]. rewrite <- IH by done.
  reflexivity.
Qed.

(** C10. For [K_0 > 0], strikes [K] that are all nonzero, [T > 0] and
    arrays [delta_K], [Q_K] as long as [K], the variance estimator returns
    exactly [(2/T) * Σ_i (ΔK_i / K_i² * e^(R*T) * Q_i) - (1/T) * (F/K_0 - 1)²],
    without raising and without printing. *)
Theorem calc_sigma_formula (np_exp : Qc → Qc) (K_0 : Qc) (K delta_K Q_K : list Qc)
    (F R T : Qc) :
  0 < K_0 → Forall (λ k, k ≠ 0) K → 0 < T →
  length delta_K = length K → length Q_K = length K →
  calc_sigma np_exp K_0 K delta_K Q_K F R T
  = mret (sigma_formula np_exp K_0 K delta_K Q_K F R T).
Proof.
  intros _ _ _ Hd Hq. unfold calc_sigma, sigma_formula.
  rewrite broadcast_same_length by (rewrite length_fmap; done).
  rewrite M_bind_ret.
  rewrite broadcast_same_length
    by (rewrite length_fmap, length_zip_with, length_fmap; lia).
  rewrite M_bind_ret, np_sum_terms by done. reflexivity.
Qed.

(** The estimator on two strikes [2] and [4] with [R = 0]. *)
Lemma calc_sigma_formula_witness :
  calc_sigma sample_exp 2 [2; qc 4 1] [2; 2] [qc 1 10; qc 2 10] (qc 5 2) 0 (qc 1 10)
  = mret (qc 7 8).
Proof.
  rewrite (calc_sigma_formula sample_exp 2 [2; qc 4 1] [2; 2] [qc 1 10; qc 2 10]
             (qc 5 2) 0 (qc 1 10)).
  - f_equal. f_equal. apply Qc_is_canon. vm_compute. reflexivity.
  - reflexivity.
  - repeat constructor; discriminate.
  - reflexivity.
  - reflexivity.
  - reflexivity.
Defined.

(** ** The rate resolver: [_get_free_rate] *)

Lemma py_round_scenario :
  py_round (qc 192 10000 * Qc_of_Z YEARS) = 7%Z
  ∧ py_round (qc 411 10000 * Qc_of_Z YEARS) = 15%Z
  ∧ py_round (qc 1 1000 * Qc_of_Z YEARS) = 0%Z.
Proof. repeat split; vm_compute; reflexivity. Qed.

(** The three ways out of [_get_free_rate]: both day-counts quoted; the
    near-term day-count missing; only the next-term day-count missing. *)
Lemma _get_free_rate_cases (shibor_ser : gmap Z Qc) (near_term next_tern : Qc) :
  let near_term_ := Z.max (py_round (near_term * Qc_of_Z YEARS)) 1 in
  let next_tern_ := py_round (next_tern * Qc_of_Z YEARS) in
  _get_free_rate shibor_ser near_term next_tern =
  match shibor_ser !! near_term_, shibor_ser !! next_tern_ with
  | Some a, Some b => ([], inr (a, b))
  | Some _, None => ([], inl (KeyError_label next_tern_))
  | None, _ =>
      ([Print_terms near_term next_tern; Print_days near_term_ next_tern_;
        Print_curve shibor_ser],
       inl (KeyError_msg "无对应的shibor!"))
  end.
Proof.
  intros near_term_ next_tern_. unfold _get_free_rate, curve_loc.
  fold near_term_ next_tern_.
  destruct (shibor_ser !! near_term_) as [a|]; [|reflexivity].
  destruct (shibor_ser !! next_tern_) as [b|]; reflexivity.
Qed.

(** C5, at the failing input.  With a curve quoted at 7 days only, a near
    term of 0.0192 years (day-count 7) and a next term of 0.0411 years
    (day-count 15), the resolver prints nothing and leaves through the bare
    [KeyError] of the lookup of 15; the same curve with the near-term entry
    missing prints the two maturities, the two day-counts and the curve
    before raising [KeyError('无对应的shibor!')]. *)
Theorem free_rate_next_term_missing :
  _get_free_rate week_curve (qc 192 10000) (qc 411 10000)
  = ([], inl (KeyError_label 15))
  ∧ _get_free_rate week_curve (qc 411 10000) (qc 192 10000)
    = ([Print_terms (qc 411 10000) (qc 192 10000); Print_days 15 7;
        Print_curve week_curve],
       inl (KeyError_msg "无对应的shibor!")).
Proof. split; compute_done. Qed.

(** ** The batch preparer on the sample days *)

Lemma prepare_data2calc_day1 :
  prepare_data2calc day1 {[ 1%Z := rising_curve ]} = mret day1_table.
Proof. compute_done. Qed.

(** C4, at the failing input.  On day 1 with the inverted curve the resolver
    returns 5% for the near term (10 days) and 3% for the next term
    (40 days), yet every row of the prepared table carries 3% in [near_rate]
    and 5% in [next_rate]: the two columns are the minimum and the maximum
    of the pair, not its first and second component. *)
Theorem prepare_data2calc_swaps_inverted_rates :
  _get_free_rate inverted_curve (qc 10 365) (qc 40 365)
  = mret (qc 5 100, qc 3 100)
  ∧ prepare_data2calc day1 {[ 1%Z := inverted_curve ]}
    = mret (enrich (qc 3 100) (qc 5 100) <$> take 10 day1).
Proof. split; compute_done. Qed.

(** ** The per-day result: [get_daily_vix] *)

(** C1, what the code does.  Whenever [get_daily_vix] returns, the near-term
    and the next-term rows both went through [_get_sigma], the index value
    blends the two results, and in each of the eight dictionaries both the
    ['near'] entry and the ['next'] entry hold the artifact of the near
    term: the artifacts computed from the next-term rows are not exposed. *)
Theorem get_daily_vix_next_entries (np_exp np_sqrt : Qc → Qc)
    (df : list enriched) (w : list event) (v : Variable_) :
  get_daily_vix np_exp np_sqrt df = (w, inr v) →
  ∃ w1 w2 near next,
    _get_sigma np_exp (filter (λ q, maturity (base q) = near_maturity q) df)
               (Some "near") = (w1, inr near)
    ∧ _get_sigma np_exp (filter (λ q, maturity (base q) = next_maturity q) df)
                 (Some "next") = (w2, inr next)
    ∧ w = w1 ++ w2
    ∧ v_vix v = calc_vix np_sqrt (sv_sigma near) (sv_sigma next)
                         (sv_term near) (sv_term next)
    ∧ (v_strike_matrix v !! "near" = Some (sv_strike_matrix near)
       ∧ v_strike_matrix v !! "next" = Some (sv_strike_matrix near))
    ∧ (v_F v !! "near" = Some (sv_F near) ∧ v_F v !! "next" = Some (sv_F near))
    ∧ (v_K v !! "near" = Some (sv_K0 near) ∧ v_K v !! "next" = Some (sv_K0 near))
    ∧ (v_median_table v !! "near" = Some (sv_median_table near)
       ∧ v_median_table v !! "next" = Some (sv_median_table near))
    ∧ (v_delta_k v !! "near" = Some (sv_delta_k near)
       ∧ v_delta_k v !! "next" = Some (sv_delta_k near))
    ∧ (v_sigma v !! "near" = Some (sv_sigma near)
       ∧ v_sigma v !! "next" = Some (sv_sigma near))
    ∧ (v_rate v !! "near" = Some (sv_term_rate near)
       ∧ v_rate v !! "next" = Some (sv_term_rate near))
    ∧ (v_term v !! "near" = Some (sv_term near)
       ∧ v_term v !! "next" = Some (sv_term near)).
Proof.
  unfold get_daily_vix. intros Hrun.
  apply M_bind_inr in Hrun as (w1 & w' & near & Hnear & Hrun & ->).
  apply M_bind_inr in Hrun as (w2 & w'' & next & Hnext & Hrun & ->).
  injection Hrun as <- <-. rewrite app_nil_r.
  exists w1, w2, near, next. cbn.
  repeat split; try assumption; by simplify_map_eq.
Qed.

(** On [day1_table] the pipeline returns, and each of the eight ['next']
    entries differs from the artifact that [_get_sigma] computes from the
    next-term rows. *)
Lemma get_daily_vix_next_entries_witness :
  ∃ v near next,
    get_daily_vix sample_exp sample_sqrt day1_table = ([], inr v)
    ∧ day1_near = ([], inr near) ∧ day1_next = ([], inr next)
    ∧ v_term v !! "next" = Some (sv_term near)
    ∧ sv_term near = qc 10 365 ∧ sv_term next = qc 40 365
    ∧ v_strike_matrix v !! "next" ≠ Some (sv_strike_matrix next)
    ∧ v_F v !! "next" ≠ Some (sv_F next)
    ∧ v_K v !! "next" ≠ Some (sv_K0 next)
    ∧ v_median_table v !! "next" ≠ Some (sv_median_table next)
    ∧ v_delta_k v !! "next" ≠ Some (sv_delta_k next)
    ∧ v_sigma v !! "next" ≠ Some (sv_sigma next)
    ∧ v_rate v !! "next" ≠ Some (sv_term_rate next)
    ∧ v_term v !! "next" ≠ Some (sv_term next).
Proof.
  destruct (get_daily_vix sample_exp sample_sqrt day1_table) as [w [e|v]] eqn:Hrun.
  { vm_compute in Hrun. discriminate. }
  destruct (get_daily_vix_next_entries _ _ _ _ _ Hrun)
    as (w1 & w2 & near & next & Hnear & Hnext & Hw & _ & (_ & HM) & (_ & HF)
        & (_ & HK) & (_ & HT) & (_ & HD) & (_ & HS) & (_ & HR) & (_ & Hterm)).
  fold day1_near in Hnear. fold day1_next in Hnext.
  assert (w1 = [] ∧ w2 = []) as [-> ->].
  { vm_compute in Hnear, Hnext. split; congruence. }
  simpl in Hw. subst w.
  exists v, near, next.
  rewrite HM, HF, HK, HT, HD, HS, HR, Hterm.
  split; [reflexivity|]. split; [assumption|]. split; [assumption|].
  split; [reflexivity|].
  assert (day1_near.2 = inr near) as Hn by (rewrite Hnear; reflexivity).
  assert (day1_next.2 = inr next) as Hx by (rewrite Hnext; reflexivity).
  clear Hrun HM HF HK HT HD HS HR Hterm Hnear Hnext.
  vm_compute in Hn, Hx.
  injection Hn as <-. injection Hx as <-.
  repeat split; compute_done.
Defined.

(** ** [unique], [np_sort] and [np_index] *)

Lemma elem_of_unique `{EqDecision A} (l : list A) (x : A) :
  x ∈ unique l ↔ x ∈ l.
Proof.
  induction l as [|y l IH]; [done|]. cbn [unique].
  rewrite !elem_of_cons, list_elem_of_filter, IH.
  destruct (decide (x = y)); tauto.
Qed.

Lemma NoDup_unique `{EqDecision A} (l : list A) : NoDup (unique l).
Proof.
  induction l as [|y l IH]; cbn [unique]; constructor.
  - rewrite list_elem_of_filter. tauto.
  - by apply NoDup_filter.
Qed.

Lemma elem_of_np_sort (l : list Qc) (x : Qc) : x ∈ np_sort l ↔ x ∈ l.
Proof. unfold np_sort. by rewrite merge_sort_Permutation. Qed.

Lemma StronglySorted_le_lt (l : list Qc) :
  StronglySorted Qcle l → NoDup l → StronglySorted Qclt l.
Proof.
  induction 1 as [|x l Hs IH Hall]; intros Hnd; constructor.
  - apply IH. by apply NoDup_cons in Hnd as [_ ?].
  - apply NoDup_cons in Hnd as [Hx _].
    rewrite Forall_forall in Hall |- *. intros y Hy.
    destruct (Qcle_lt_or_eq _ _ (Hall y Hy)) as [?| ->]; done.
Qed.

Lemma np_sort_unique_sorted (l : list Qc) :
  StronglySorted Qclt (np_sort (unique l)).
Proof.
  apply StronglySorted_le_lt.
  - unfold np_sort. apply StronglySorted_merge_sort; apply _.
  - unfold np_sort. rewrite merge_sort_Permutation. apply NoDup_unique.
Qed.

Lemma np_index_nat {A} (a : list A) (n : nat) (x : A) :
  a !! n = Some x → np_index a (Z.of_nat n) = mret x.
Proof.
  intros Hx. pose proof (lookup_lt_Some _ _ _ Hx). unfold np_index.
  rewrite (decide_False (P := (Z.of_nat n < 0)%Z)) by lia.
  rewrite decide_True by lia.
  by rewrite Nat2Z.id, Hx.
Qed.

Lemma np_index_nil {A} (n : Z) : np_index (@nil A) n = raise IndexError.
Proof.
  unfold np_index. cbn [length]. destruct (decide (n < 0)%Z);
    rewrite decide_False by lia; reflexivity.
Qed.

Lemma np_index_cases {A} (a : list A) (n : Z) :
  (∃ x, np_index a n = mret x) ∨ np_index a n = raise IndexError.
Proof.
  unfold np_index. case_decide; [|by right].
  destruct (a !! _); eauto.
Qed.

(** In a strictly ascending list the values below the one at position [i]
    are the first [i] values. *)
Lemma sorted_lookup_below (s : list Qc) (i : nat) (v x : Qc) :
  StronglySorted Qclt s → s !! i = Some v →
  (x ∈ s ∧ x < v ↔ x ∈ take i s).
Proof.
  intros Hs. revert i. induction Hs as [|y s Hs IH Hall]; intros i Hi; [done|].
  rewrite Forall_forall in Hall.
  destruct i as [|i]; simplify_eq/=.
  - split; [|by intros ?%elem_of_nil].
    intros [[->|Hx]%elem_of_cons Hlt].
    + by apply irreflexivity in Hlt; [|apply _].
    + destruct (irreflexivity Qclt v). etrans; [apply Hall|]; done.
  - rewrite !elem_of_cons, <- IH by done.
    assert (y < v) as Hy by (apply Hall; by eapply list_elem_of_lookup_2).
    split.
    + intros [[->|Hx] Hlt]; [by left|right; tauto].
    + intros [->|[Hx Hlt]]; [split; [by left|done]|tauto].
Qed.

Lemma sorted_lookup_nth_smallest (xs s : list Qc) (n : nat) (v : Qc) :
  StronglySorted Qclt s → (∀ x, x ∈ s ↔ x ∈ xs) →
  (s !! n = Some v ↔ nth_smallest_distinct xs n v).
Proof.
  intros Hs Hel.
  assert (NoDup s) as Hnd.
  { clear Hel. induction Hs as [|y s Hs IH Hall]; constructor; [|done].
    rewrite Forall_forall in Hall. intros Hy%Hall.
    by apply irreflexivity in Hy; [|apply _]. }
  split.
  - intros Hn. split.
    + apply Hel. by eapply list_elem_of_lookup_2.
    + exists (take n s). split; [|split].
      * rewrite <- (take_drop n s) in Hnd. by apply NoDup_app in Hnd as [? _].
      * rewrite length_take. apply lookup_lt_Some in Hn. lia.
      * intros x. rewrite <- (sorted_lookup_below s n v x) by done.
        by rewrite Hel.
  - intros [Hv (below & Hbn & Hlen & Hbelow)].
    apply Hel, list_elem_of_lookup_1 in Hv as [i Hi].
    assert (below ≡ₚ take i s) as Hperm.
    { apply NoDup_Permutation; [done| |].
      - rewrite <- (take_drop i s) in Hnd. by apply NoDup_app in Hnd as [? _].
      - intros x. rewrite Hbelow, <- (sorted_lookup_below s i v x) by done.
        by rewrite Hel. }
    apply Permutation_length in Hperm. rewrite length_take in Hperm.
    apply lookup_lt_Some in Hi as Hlt.
    replace n with i by lia. done.
Qed.

(** ** The term selector: [_get_near_or_next_options] *)

Lemma term_selector_sorted_maturities (df : list quote) (n : nat) (v : Qc) :
  np_sort (unique (maturity <$> df)) !! n = Some v
  ↔ nth_smallest_distinct (maturity <$> df) n v.
Proof.
  apply sorted_lookup_nth_smallest.
  - apply np_sort_unique_sorted.
  - intros x. by rewrite elem_of_np_sort, elem_of_unique.
Qed.

(** C3, as the code has it.  The selector first removes the quotes whose
    maturity is below [filter_num/365]; when the surviving maturities have
    an n-th smallest distinct value [v] (n = 0 for the smallest), it returns
    exactly the surviving quotes whose maturity is at most [v], in their
    original order: the quotes of the n + 1 smallest maturities, so with
    n = 0 only those of the smallest one. *)
Theorem term_selector_up_to_nth (df : list quote) (n : nat) (filter_num : Z)
    (v : Qc) :
  let survivors :=
    filter (λ q, Qc_of_Z filter_num / Qc_of_Z 365 ≤ maturity q) df in
  nth_smallest_distinct (maturity <$> survivors) n v →
  _get_near_or_next_options df (Z.of_nat n) filter_num
  = mret (filter (λ q, maturity q ≤ v) survivors)
  ∧ (∀ q, q ∈ filter (λ q, maturity q ≤ v) survivors ↔
          q ∈ df ∧ Qc_of_Z filter_num / Qc_of_Z 365 ≤ maturity q
          ∧ maturity q ≤ v)
  ∧ (n = 0%nat → ∀ q, q ∈ filter (λ q, maturity q ≤ v) survivors →
                      maturity q = v).
Proof.
  intros survivors Hnth. split; [|split].
  - apply term_selector_sorted_maturities in Hnth.
    unfold _get_near_or_next_options, YEARS. fold survivors.
    rewrite (np_index_nat _ _ _ Hnth). by rewrite M_bind_ret.
  - intros q. unfold survivors. rewrite !list_elem_of_filter. tauto.
  - intros -> q [Hle Hq]%list_elem_of_filter.
    destruct Hnth as [_ (below & _ & Hlen & Hbelow)].
    apply nil_length_inv in Hlen as ->.
    destruct (Qcle_lt_or_eq _ _ Hle) as [Hlt|]; [|done].
    exfalso. apply (not_elem_of_nil (maturity q)), Hbelow. split; [|done].
    by apply list_elem_of_fmap_2.
Qed.

(** On day 1 with [n = 1] the selector keeps the ten quotes that expire in
    10 or in 40 days. *)
Lemma term_selector_up_to_nth_witness :
  nth_smallest_distinct
    (maturity <$> filter (λ q, Qc_of_Z 7 / Qc_of_Z 365 ≤ maturity q) day1)
    1 (qc 40 365)
  ∧ _get_near_or_next_options day1 1 7 = mret (take 10 day1).
Proof.
  assert (nth_smallest_distinct
            (maturity <$> filter (λ q, Qc_of_Z 7 / Qc_of_Z 365 ≤ maturity q) day1)
            1 (qc 40 365)) as Hnth.
  { apply term_selector_sorted_maturities. vm_compute. reflexivity. }
  split; [exact Hnth|].
  destruct (term_selector_up_to_nth day1 1 7 (qc 40 365) Hnth) as [Hrun _].
  change (Z.of_nat 1) with 1%Z in Hrun. rewrite Hrun.
  f_equal; vm_compute; reflexivity.
Defined.

(** C3, refuted as stated.  On day 1 with [n = 1] the selector returns, among
    others, a quote that expires in 10 days, although 10/365 is the smallest
    surviving maturity and not the second smallest. *)
Lemma term_selector_keeps_nearer_terms :
  ∃ out q,
    _get_near_or_next_options day1 1 7 = mret out
    ∧ q ∈ out
    ∧ ¬ nth_smallest_distinct
          (maturity <$> filter (λ q, Qc_of_Z 7 / Qc_of_Z 365 ≤ maturity q) day1)
          1 (maturity q).
Proof.
  exists (take 10 day1).
  eexists {| date := 1; exercise_date := 0; close := qc 1225 10000;
             contract_type := Call; exercise_price := qc 23 10;
             maturity := qc 10 365 |}.
  split; [compute_done|]. split; [compute_done|].
  rewrite <- term_selector_sorted_maturities. compute_done.
Qed.

(** *** Too few qualifying maturities *)

Lemma term_selector_cases (df : list quote) (n filter_num : Z) :
  (∃ out, _get_near_or_next_options df n filter_num = mret out)
  ∨ _get_near_or_next_options df n filter_num = raise IndexError.
Proof.
  unfold _get_near_or_next_options.
  destruct (np_index_cases
              (np_sort (unique (maturity <$>
                 filter (λ q, Qc_of_Z filter_num / Qc_of_Z YEARS ≤ maturity q) df)))
              n) as [[x ->]| ->].
  - left. rewrite M_bind_ret. eauto.
  - by right.
Qed.

Lemma np_index_short {A} (a : list A) :
  (length a ≤ 1)%nat → np_index a 1 = raise IndexError.
Proof.
  intros Hlen. unfold np_index.
  rewrite (decide_False (P := (1 < 0)%Z)) by lia.
  rewrite decide_False by lia. reflexivity.
Qed.

Lemma NoDup_all_equal_length {A} (l : list A) :
  NoDup l → (∀ x y, x ∈ l → y ∈ l → x = y) → (length l ≤ 1)%nat.
Proof.
  intros Hnd Heq. destruct l as [|x [|y l]]; simpl; [lia..|].
  apply NoDup_cons in Hnd as [Hx _]. destruct Hx.
  rewrite (Heq x y); [left|left|right; left].
Qed.

Lemma term_selector_no_survivor (df : list quote) (n filter_num : Z) :
  (∀ q, q ∈ df → maturity q < Qc_of_Z filter_num / Qc_of_Z 365) →
  _get_near_or_next_options df n filter_num = raise IndexError.
Proof.
  intros Hall. unfold _get_near_or_next_options, YEARS.
  replace (filter _ df) with (@nil quote).
  - cbn. by rewrite np_index_nil.
  - symmetry. apply elem_of_nil_inv. intros q [Hle Hq]%list_elem_of_filter.
    exact (Qcle_not_lt _ _ Hle (Hall q Hq)).
Qed.

Lemma term_selector_one_term (df : list quote) (filter_num : Z) :
  (∀ q1 q2, q1 ∈ df → q2 ∈ df →
     Qc_of_Z filter_num / Qc_of_Z 365 ≤ maturity q1 →
     Qc_of_Z filter_num / Qc_of_Z 365 ≤ maturity q2 →
     maturity q1 = maturity q2) →
  _get_near_or_next_options df 1 filter_num = raise IndexError.
Proof.
  intros Hone. unfold _get_near_or_next_options, YEARS.
  rewrite np_index_short; [done|].
  apply NoDup_all_equal_length.
  - unfold np_sort. rewrite merge_sort_Permutation. apply NoDup_unique.
  - intros x y.
    rewrite !elem_of_np_sort, !elem_of_unique, !list_elem_of_fmap.
    intros (q1 & -> & [? ?]%list_elem_of_filter)
           (q2 & -> & [? ?]%list_elem_of_filter).
    by apply Hone.
Qed.

Lemma mapM_raise {A B} (f : A → M B) (l : list A) (e : exn) :
  (∀ x, x ∈ l → (∃ y, f x = mret y) ∨ f x = raise e) →
  (∃ x, x ∈ l ∧ f x = raise e) →
  mapM f l = raise e.
Proof.
  induction l as [|x l IH]; intros Hall (x0 & Hx0 & Hraise).
  - by apply elem_of_nil in Hx0.
  - cbn [mapM].
    destruct (Hall x) as [[y Hy]|Hx]; [left| |by rewrite Hx].
    rewrite Hy, M_bind_ret, IH; [done| |].
    + intros z Hz. apply Hall. by right.
    + apply elem_of_cons in Hx0 as [->|?]; [|by eauto].
      rewrite Hy in Hraise. discriminate.
Qed.

Lemma elem_of_groupby {A} (key : A → Z) (df : list A) (q : A) :
  q ∈ df → (key q, filter (λ x, key x = key q) df) ∈ groupby key df.
Proof.
  intros Hq. unfold groupby.
  apply list_elem_of_fmap. exists (key q). split; [done|].
  rewrite merge_sort_Permutation, elem_of_unique.
  by apply list_elem_of_fmap_2.
Qed.

(** C6, as the code has it.  When no maturity survives the filter the
    selector raises [IndexError], whatever [n]; and when some trading day of
    the batch has fewer than two distinct maturities of at least 7/365, the
    batch preparer itself leaves through that [IndexError], for every rate
    table: no day of the batch is prepared. *)
Theorem too_few_terms_abort :
  (∀ (df : list quote) (n filter_num : Z),
      (∀ q, q ∈ df → maturity q < Qc_of_Z filter_num / Qc_of_Z 365) →
      _get_near_or_next_options df n filter_num = raise IndexError)
  ∧ (∀ (opt_data : list quote) (shibor_data : gmap Z (gmap Z Qc)) (q0 : quote),
      q0 ∈ opt_data →
      (∀ q1 q2, q1 ∈ opt_data → q2 ∈ opt_data →
         date q1 = date q0 → date q2 = date q0 →
         Qc_of_Z 7 / Qc_of_Z 365 ≤ maturity q1 →
         Qc_of_Z 7 / Qc_of_Z 365 ≤ maturity q2 →
         maturity q1 = maturity q2) →
      prepare_data2calc opt_data shibor_data = raise IndexError).
Proof.
  split; [exact term_selector_no_survivor|].
  intros opt_data shibor_data q0 Hq0 Hone. unfold prepare_data2calc.
  rewrite (mapM_raise _ _ IndexError); [done| |].
  - intros g _. apply term_selector_cases.
  - eexists. split; [by apply elem_of_groupby|]. cbn [snd].
    apply term_selector_one_term.
    intros q1 q2 [? ?]%list_elem_of_filter [? ?]%list_elem_of_filter.
    by apply Hone.
Qed.

(** Day 3 has no qualifying maturity; day 2 has a single one, and a batch
    made of day 1 and day 2 is not prepared. *)
Lemma too_few_terms_abort_witness :
  _get_near_or_next_options day3 0 7 = raise IndexError
  ∧ prepare_data2calc (day1 ++ day2) {[ 1%Z := rising_curve; 2%Z := rising_curve ]}
    = raise IndexError.
Proof.
  destruct too_few_terms_abort as [Hsel Hbatch]. split.
  - apply Hsel. intros q Hq.
    repeat (apply elem_of_cons in Hq as [->|Hq]; [reflexivity|]).
    by apply elem_of_nil in Hq.
  - eapply (Hbatch _ _ {| date := 2; exercise_date := 0; close := qc 969 10000;
                         contract_type := Put; exercise_price := qc 23 10;
                         maturity := qc 20 365 |}).
    + compute_done.
    + intros q1 q2 Hq1 Hq2 Hd1 Hd2 _ _.
      assert (∀ q, q ∈ day1 ++ day2 → date q = 2%Z → maturity q = qc 20 365)
        as Hday2.
      { intros q Hq. apply (bool_decide_unpack _).
        revert q Hq. apply Forall_forall. compute_done. }
      rewrite (Hday2 q1), (Hday2 q2); done.
Defined.

(** C6, refuted as stated.  For day 3, where no maturity survives the
    filter, the selector raises instead of returning an empty table; and
    while day 1 alone is prepared, the batch of day 1 and day 2 (a single
    qualifying maturity) is not: the preparer raises and returns no row, the
    rows of day 1 included. *)
Lemma too_few_terms_not_silent :
  _get_near_or_next_options day3 0 7 = ([], inl IndexError)
  ∧ _get_near_or_next_options day3 1 7 = ([], inl IndexError)
  ∧ prepare_data2calc day1 {[ 1%Z := rising_curve; 2%Z := rising_curve ]}
    = ([], inr day1_table)
  ∧ prepare_data2calc (day1 ++ day2) {[ 1%Z := rising_curve; 2%Z := rising_curve ]}
    = ([], inl IndexError).
Proof. repeat split; compute_done. Qed.

(** ** First minimum of a series *)

(** [argmin] returns the first entry of least value. *)
Lemma argmin_first {L} (s : list (L * Qc)) :
  s ≠ [] →
  ∃ s1 l x s2,
    s = s1 ++ (l, x) :: s2 ∧ argmin s = Some (l, x)
    ∧ (∀ p, p ∈ s1 → x < p.2) ∧ (∀ p, p ∈ s2 → x ≤ p.2).
Proof.
  induction s as [|[l0 x0] s IH]; [done|]. intros _. cbn [argmin].
  destruct (decide (s = [])) as [->|Hne].
  { exists [], l0, x0, []. repeat split; by intros p ?%elem_of_nil. }
  destruct (IH Hne) as (s1 & l & m & s2 & -> & -> & H1 & H2).
  case_decide as Hle.
  - exists [], l0, x0, (s1 ++ (l, m) :: s2).
    repeat split; [by intros p ?%elem_of_nil|].
    intros p [Hp|[->|Hp]%elem_of_cons]%elem_of_app.
    + apply Qclt_le_weak. eapply Qcle_lt_trans; [done|by apply H1].
    + done.
    + etrans; [done|by apply H2].
  - apply Qcnot_le_lt in Hle.
    exists ((l0, x0) :: s1), l, m, s2. repeat split; [|done].
    intros p [->|Hp]%elem_of_cons; [done|by apply H1].
Qed.

Lemma idxmin_first {A L} (lab : A → L) (g : A → Qc) (l : list A) :
  l ≠ [] →
  ∃ l1 a l2,
    l = l1 ++ a :: l2 ∧ idxmin ((λ r, (lab r, g r)) <$> l) = Some (lab a)
    ∧ (∀ r, r ∈ l1 → g a < g r) ∧ (∀ r, r ∈ l2 → g a ≤ g r).
Proof.
  intros Hne.
  destruct (argmin_first ((λ r, (lab r, g r)) <$> l))
    as (s1 & k & x & s2 & Hs & Hmin & H1 & H2).
  { by destruct l. }
  apply fmap_app_inv in Hs as (l1 & l' & -> & Hl' & ->).
  symmetry in Hl'. apply fmap_cons_inv in Hl' as (a & l2 & [= -> ->] & -> & ->).
  exists l1, a, l2. unfold idxmin. rewrite Hmin. repeat split.
  - intros r Hr. apply (H1 (lab r, g r)). apply list_elem_of_fmap. eauto.
  - intros r Hr. apply (H2 (lab r, g r)). apply list_elem_of_fmap. eauto.
Qed.

(** ** Strictly ascending strike matrices *)

#[local] Instance strike_lt_trans : Transitive strike_lt.
Proof. intros a b c. unfold strike_lt. apply Qclt_trans. Qed.

Lemma sorted_by_strike_inj (m : list strike_row) (a b : strike_row) :
  sorted_by_strike m → a ∈ m → b ∈ m → strike a = strike b → a = b.
Proof.
  induction 1 as [|r m Hs IH Hall]; [by intros ?%elem_of_nil|].
  rewrite Forall_forall in Hall. unfold strike_lt in Hall.
  intros [->|Ha]%elem_of_cons [->|Hb]%elem_of_cons Heq; auto.
  - specialize (Hall _ Hb). rewrite Heq in Hall.
    by apply irreflexivity in Hall; [|apply _].
  - specialize (Hall _ Ha). rewrite Heq in Hall.
    by apply irreflexivity in Hall; [|apply _].
Qed.

Lemma sorted_by_strike_filter (P : strike_row → Prop) `{∀ r, Decision (P r)}
    (m : list strike_row) :
  sorted_by_strike m → sorted_by_strike (filter P m).
Proof.
  induction 1 as [|r m Hs IH Hall]; [constructor|].
  rewrite filter_cons. case_decide; [|done]. constructor; [done|].
  rewrite Forall_forall in Hall |- *.
  intros x [_ ?]%list_elem_of_filter. by apply Hall.
Qed.

(** In an ascending table the first minimum of a column is the minimum of
    least strike. *)
Lemma first_min_least_strike (g : strike_row → Qc) (l1 l2 : list strike_row)
    (a : strike_row) :
  sorted_by_strike (l1 ++ a :: l2) →
  (∀ r, r ∈ l1 → g a < g r) → (∀ r, r ∈ l2 → g a ≤ g r) →
  ∀ r, r ∈ l1 ++ a :: l2 → g a ≤ g r ∧ (g r = g a → strike a ≤ strike r).
Proof.
  intros Hs H1 H2 r Hr.
  apply StronglySorted_app_1_r, StronglySorted_cons in Hs as [Hall _].
  rewrite Forall_forall in Hall. unfold strike_lt in Hall.
  apply elem_of_app in Hr as [Hr|[->|Hr]%elem_of_cons].
  - specialize (H1 r Hr). split; [by apply Qclt_le_weak|].
    intros Heq. rewrite Heq in H1. by apply irreflexivity in H1; [|apply _].
  - done.
  - split; [by apply H2|]. intros _. apply Qclt_le_weak. by apply Hall.
Qed.

(** ** The exponential

    [np_exp] stands for [np.exp].  The forward-price scenario assumes of it
    the bracket [1 + x ≤ np_exp x ≤ 1 / (1 - x)] at one point; the
    exponential function of the real numbers lies in that bracket. *)

Lemma exp_bracket (x : R) :
  (0 <= x < 1 → 1 + x <= exp x <= / (1 - x))%R.
Proof.
  intros [H0 H1]. split.
  - apply exp_ineq1_le.
  - pose proof (exp_ineq1_le (- x)) as Hm.
    pose proof (exp_pos x) as Hp.
    assert (exp x * exp (- x) = 1)%R as He.
    { rewrite <- exp_plus. replace (x + - x)%R with 0%R by lra. apply exp_0. }
    apply (Rmult_le_reg_r (1 - x)); [lra|].
    rewrite Rinv_l by lra. nra.
Qed.

Lemma Q2R_Qred (q : Q) : Q2R (Qred q) = Q2R q.
Proof. apply Qeq_eqR, Qred_correct. Qed.

Lemma Q2R_1 : Q2R 1 = 1%R.
Proof. unfold Q2R. simpl. lra. Qed.

Lemma exp_bracket_Qc (x : Qc) :
  0 ≤ x → x < 1 →
  (Q2R (1 + x)%Qc <= exp (Q2R x) <= Q2R (1 / (1 - x))%Qc)%R.
Proof.
  intros H0 H1.
  assert (0 <= Q2R x < 1)%R as Hx.
  { split.
    - rewrite <- RMicromega.Q2R_0. by apply Qle_Rle.
    - rewrite <- Q2R_1. by apply Qlt_Rlt. }
  assert (Q2R (1 + x)%Qc = 1 + Q2R x)%R as ->.
  { unfold Qcplus, Q2Qc. cbn [this].
    rewrite !Q2R_Qred, Q2R_plus, Q2R_Qred, Q2R_1. lra. }
  assert (Q2R (1 / (1 - x))%Qc = / (1 - Q2R x))%R as ->.
  { unfold Qcdiv, Qcmult, Qcinv, Qcminus, Qcplus, Qcopp, Q2Qc. cbn [this].
    rewrite Q2R_Qred, Q2R_mult, !Q2R_Qred, Q2R_inv.
    - rewrite Q2R_Qred, Q2R_plus, !Q2R_Qred, Q2R_opp, Q2R_1.
      unfold Rminus. lra.
    - rewrite Qred_correct. intros Heq. apply Qeq_eqR in Heq.
      rewrite Q2R_plus, !Q2R_Qred, Q2R_opp, Q2R_1, RMicromega.Q2R_0 in Heq.
      lra. }
  by apply exp_bracket.
Qed.

(** ** The forward-price estimator: [_get_min_strike_diff] and [calc_F] *)

Lemma snd_imap_pair {A} (f : nat → nat) (l : list A) :
  (imap (λ i r, (f i, r)) l).*2 = l.
Proof.
  revert f. induction l as [|x l IH]; intros f; [done|].
  cbn [imap fmap list_fmap snd]. f_equal. apply (IH (f ∘ S)).
Qed.

Lemma _get_min_strike_diff_first (strike_matrix : list strike_row) :
  strike_matrix ≠ [] →
  ∃ l1 row l2,
    strike_matrix = l1 ++ row :: l2
    ∧ _get_min_strike_diff strike_matrix = mret row
    ∧ (∀ r, r ∈ l1 → Qcabs.Qcabs (diff row) < Qcabs.Qcabs (diff r))
    ∧ (∀ r, r ∈ l2 → Qcabs.Qcabs (diff row) ≤ Qcabs.Qcabs (diff r)).
Proof.
  intros Hne. unfold _get_min_strike_diff.
  set (df_ := imap (λ i r, (i, r)) strike_matrix).
  destruct (idxmin_first fst (λ p : nat * strike_row, Qcabs.Qcabs (diff p.2)) df_)
    as (L1 & a & L2 & Hdf & -> & H1 & H2).
  { subst df_. by destruct strike_matrix. }
  assert (df_ !! length L1 = Some a) as Ha.
  { rewrite Hdf. by rewrite list_lookup_middle. }
  assert (a.1 = length L1) as Hidx.
  { subst df_. rewrite list_lookup_imap in Ha.
    by destruct (strike_matrix !! length L1); simplify_eq/=. }
  rewrite Hidx, Ha. destruct a as [i row]. cbn [fst snd] in *.
  exists L1.*2, row, L2.*2. repeat split.
  - assert (df_.*2 = strike_matrix) as Hsnd
      by apply (snd_imap_pair (λ i, i)).
    by rewrite <- Hsnd, Hdf, fmap_app, fmap_cons.
  - intros r (p & -> & Hp)%list_elem_of_fmap. by apply (H1 p).
  - intros r (p & -> & Hp)%list_elem_of_fmap. by apply (H2 p).
Qed.

Lemma scenario_matrix_built :
  (m ← _build_strike_matrix scenario_quotes; mret (dropna m))
  = mret scenario_matrix.
Proof. compute_done. Qed.

(** C7. On a non-empty strike matrix (strikes ascending) the estimator
    picks the row whose [|diff|] is least over the whole matrix, the one of
    least strike when several rows reach that minimum, and the forward
    price is [strike + e^(R*T) * (C - P)] with the call and the put of that
    row.  For the three strikes 2.3, 2.35, 2.4 with [T = 30/365] and
    [R = 0.03] the anchor is the strike 2.3 and, for an exponential with
    [1 + x ≤ e^x ≤ 1/(1 - x)] at [x = R*T] (the bracket of [exp_bracket_Qc]),
    the forward price lies between 2.3256 and 2.3257. *)
Theorem forward_price_anchor (np_exp : Qc → Qc)
    (strike_matrix : list strike_row) (R T : Qc) :
  strike_matrix ≠ [] → sorted_by_strike strike_matrix →
  1 + qc 3 100 * qc 30 365 ≤ np_exp (qc 3 100 * qc 30 365)
    ≤ 1 / (1 - qc 3 100 * qc 30 365) →
  (∃ row,
     _get_min_strike_diff strike_matrix = mret row
     ∧ row ∈ strike_matrix
     ∧ (∀ r, r ∈ strike_matrix →
          Qcabs.Qcabs (diff row) ≤ Qcabs.Qcabs (diff r)
          ∧ (Qcabs.Qcabs (diff r) = Qcabs.Qcabs (diff row) →
             strike row ≤ strike r))
     ∧ calc_F np_exp (strike row) R T (call row) (put row)
       = strike row + np_exp (R * T) * (call row - put row))
  ∧ _get_min_strike_diff scenario_matrix = mret scenario_anchor
  ∧ qc 23256 10000
    < calc_F np_exp (strike scenario_anchor) (qc 3 100) (qc 30 365)
             (call scenario_anchor) (put scenario_anchor)
    < qc 23257 10000.
Proof.
  intros Hne Hsorted [Hlo Hhi]. split; [|split].
  - destruct (_get_min_strike_diff_first strike_matrix Hne)
      as (l1 & row & l2 & -> & Hrun & H1 & H2).
    exists row. split; [done|].
    split; [apply elem_of_app; right; left|]. split; [|done].
    by apply (first_min_least_strike (λ r, Qcabs.Qcabs (diff r))).
  - compute_done.
  - unfold calc_F, scenario_anchor. cbn [strike call put].
    set (e := np_exp (qc 3 100 * qc 30 365)) in *. clearbody e.
    assert (1 / (1 - qc 3 100 * qc 30 365) = qc 3650 3641) as Hq
      by (apply Qc_is_canon; reflexivity).
    rewrite Hq in Hhi. clear Hq.
    split; qc2q; lra.
Qed.

(** The scenario itself, with the second-order Taylor polynomial as the
    exponential. *)
Lemma forward_price_anchor_witness :
  _get_min_strike_diff scenario_matrix = mret scenario_anchor
  ∧ qc 23256 10000
    < calc_F sample_exp (qc 23 10) (qc 3 100) (qc 30 365)
             (qc 1225 10000) (qc 969 10000)
    < qc 23257 10000.
Proof.
  apply (forward_price_anchor sample_exp scenario_matrix (qc 3 100) (qc 30 365)).
  - discriminate.
  - repeat constructor.
  - split; compute_done.
Defined.

(** ** The mid-quote synthesizer: [_get_median_price_table] *)

Lemma strike_loc_sorted (m : list strike_row) (row : strike_row)
    (col : strike_row → Qc) :
  sorted_by_strike m → row ∈ m →
  strike_loc m (strike row) col = mret (col row).
Proof.
  intros Hs Hrow. unfold strike_loc.
  destruct (list_find _ m) as [[i r]|] eqn:Hfind.
  - apply list_find_Some in Hfind as (Hi & Heq & _).
    apply list_elem_of_lookup_2 in Hi.
    by rewrite (sorted_by_strike_inj m r row).
  - apply list_find_None in Hfind. rewrite Forall_forall in Hfind.
    by destruct (Hfind row).
Qed.

Lemma series_set_fresh (s : list (Qc * Qc)) (k v : Qc) :
  (∀ p, p ∈ s → p.1 ≠ k) → series_set s k v = s ++ [(k, v)].
Proof.
  induction s as [|[k' v'] s IH]; intros Hfresh; [done|]. cbn [series_set].
  rewrite decide_False by (apply (Hfresh (k', v')); left).
  cbn. f_equal. apply IH. intros p Hp. apply Hfresh. by right.
Qed.

Lemma filter_all {A} (P : A → Prop) `{∀ x, Decision (P x)} (l : list A) :
  (∀ x, x ∈ l → P x) → filter P l = l.
Proof.
  induction l as [|x l IH]; intros HP; [done|].
  rewrite filter_cons_True by (apply HP; left).
  f_equal. apply IH. intros y Hy. apply HP. by right.
Qed.

Lemma filter_none {A} (P : A → Prop) `{∀ x, Decision (P x)} (l : list A) :
  (∀ x, x ∈ l → ¬ P x) → filter P l = [].
Proof.
  intros HP. apply elem_of_nil_inv. intros x [? ?]%list_elem_of_filter.
  by apply (HP x).
Qed.

(** An ascending matrix is its rows below a strike, the row of that strike,
    and its rows above. *)
Lemma sorted_by_strike_split (m : list strike_row) (row : strike_row) :
  sorted_by_strike m → row ∈ m →
  m = filter (λ r, strike r < strike row) m
      ++ row :: filter (λ r, strike row < strike r) m.
Proof.
  induction 1 as [|r m Hs IH Hall]; [by intros ?%elem_of_nil|].
  rewrite Forall_forall in Hall. unfold strike_lt in Hall.
  intros [->|Hrow]%elem_of_cons.
  - rewrite (filter_cons_False _ r) by (by apply irreflexivity; apply _).
    rewrite (filter_cons_False _ r) by (by apply irreflexivity; apply _).
    rewrite filter_none, filter_all; [done|done|].
    intros x Hx Hlt. apply (irreflexivity Qclt (strike x)).
    etrans; [done|by apply Hall].
  - rewrite filter_cons_True by (by apply Hall).
    rewrite (filter_cons_False _ r).
    + cbn. f_equal. by apply IH.
    + intros Hlt. apply (irreflexivity Qclt (strike r)).
      etrans; [by apply Hall|done].
Qed.

Lemma NoDup_fst_inj (s : list (Qc * Qc)) (a b : Qc * Qc) :
  NoDup s.*1 → a ∈ s → b ∈ s → a.1 = b.1 → a = b.
Proof.
  induction s as [|p s IH]; [by intros _ ?%elem_of_nil|].
  rewrite fmap_cons, NoDup_cons.
  intros [Hp Hnd] [->|Ha]%elem_of_cons [->|Hb]%elem_of_cons Heq; auto.
  - destruct Hp. rewrite Heq. by apply list_elem_of_fmap_2.
  - destruct Hp. rewrite <- Heq. by apply list_elem_of_fmap_2.
Qed.

#[local] Instance key_le_trans : Transitive key_le.
Proof. intros a b c. unfold key_le. apply Qcle_trans. Qed.

#[local] Instance key_le_total : Total key_le.
Proof. intros a b. unfold key_le. apply Qc_le_total. Qed.

(** Sorting by index leaves a series alone when its index is ascending. *)
Lemma sort_index_sorted (s : list (Qc * Qc)) :
  StronglySorted Qclt s.*1 → sort_index s = s.
Proof.
  intros Hs. unfold sort_index.
  assert (NoDup s.*1) as Hnd.
  { clear -Hs. induction Hs as [|y l Hs IH Hall]; constructor; [|done].
    rewrite Forall_forall in Hall. intros Hy%Hall.
    by apply irreflexivity in Hy; [|apply _]. }
  apply (StronglySorted_unique_strong key_le).
  - intros a b Ha Hb Hab Hba. rewrite merge_sort_Permutation in Ha.
    apply (NoDup_fst_inj s); [done..|]. by apply Qcle_antisym.
  - apply StronglySorted_merge_sort; apply _.
  - clear Hnd. induction s as [|p s IH]; [constructor|].
    rewrite fmap_cons in Hs. apply StronglySorted_cons in Hs as [Hall Hs].
    constructor; [by apply IH|].
    rewrite Forall_forall in Hall. apply Forall_forall. intros q Hq.
    unfold key_le.
    apply Qclt_le_weak, Hall. by apply list_elem_of_fmap_2.
  - apply merge_sort_Permutation.
Qed.

Lemma mid_quote_fst (K_0 : Qc) (m : list strike_row) :
  (mid_quote K_0 <$> m).*1 = strike <$> m.
Proof. rewrite <- list_fmap_compose. reflexivity. Qed.

Lemma sorted_by_strike_strikes (m : list strike_row) :
  sorted_by_strike m → StronglySorted Qclt (strike <$> m).
Proof.
  induction 1 as [|r m Hs IH Hall]; [constructor|].
  rewrite fmap_cons. constructor; [done|]. by apply Forall_fmap.
Qed.

(** With a strike below [F]: [K_0] is the strike of the first row of least
    [diff] among the rows below [F], nothing is printed, and the table is
    the mid-quote of every row of the matrix, in the order of the matrix. *)
Lemma _get_median_price_table_below (m : list strike_row) (F : Qc) :
  sorted_by_strike m → (∃ r, r ∈ m ∧ strike r < F) →
  ∃ l1 row l2,
    filter (λ r, strike r < F) m = l1 ++ row :: l2
    ∧ (∀ r, r ∈ l1 → diff row < diff r)
    ∧ (∀ r, r ∈ l2 → diff row ≤ diff r)
    ∧ _get_median_price_table m F
      = mret (mid_quote (strike row) <$> m, strike row).
Proof.
  intros Hs (r0 & Hr0 & Hlt0). unfold _get_median_price_table.
  destruct (idxmin_first strike diff (filter (λ r, strike r < F) m))
    as (l1 & row & l2 & Hfilter & -> & H1 & H2).
  { intros Hnil. by apply (filter_nil_not_elem_of _ _ r0 Hnil). }
  exists l1, row, l2. rewrite Hfilter. do 3 (split; [done|]).
  assert (row ∈ m) as Hrow.
  { assert (row ∈ filter (λ r, strike r < F) m) as Hin
      by (rewrite Hfilter; apply elem_of_app; right; left).
    by apply list_elem_of_filter in Hin as [_ ?]. }
  rewrite M_bind_ret. cbn [negb].
  rewrite !strike_loc_sorted by done. rewrite !M_bind_ret.
  rewrite series_set_fresh.
  2:{ intros p (r & -> & [Hlt _]%list_elem_of_filter)%list_elem_of_fmap.
      cbn. by apply Qclt_not_eq. }
  f_equal. f_equal. f_equal.
  rewrite sort_index_sorted.
  - rewrite (sorted_by_strike_split m row Hs Hrow) at 3.
    rewrite !fmap_app, fmap_cons, <- app_assoc. cbn [app].
    f_equal; [|f_equal].
    + apply list_fmap_ext. intros i r Hr%list_elem_of_lookup_2.
      apply list_elem_of_filter in Hr as [Hlt _]. unfold mid_quote.
      by rewrite decide_True.
    + unfold mid_quote.
      rewrite !decide_False by (by apply irreflexivity; apply _).
      by rewrite Qcmult_half.
    + apply list_fmap_ext. intros i r Hr%list_elem_of_lookup_2.
      apply list_elem_of_filter in Hr as [Hlt _]. unfold mid_quote.
      rewrite decide_False, decide_True; [done..|].
      intros Hlt'. apply (irreflexivity Qclt (strike r)). by etrans.
  - pose proof (sorted_by_strike_strikes m Hs) as Hss.
    rewrite (sorted_by_strike_split m row Hs Hrow), fmap_app, fmap_cons in Hss.
    rewrite !fmap_app, <- !list_fmap_compose, <- app_assoc. exact Hss.
Qed.

(** Without a strike below [F]: a warning, [K_0 = F] and the calls of the
    strikes above [F]. *)
Lemma _get_median_price_table_none_below (m : list strike_row) (F : Qc) :
  m ≠ [] → (∀ r, r ∈ m → ¬ strike r < F) →
  ∃ r0 m',
    m = r0 :: m'
    ∧ _get_median_price_table m F
      = ([Warn F (strike r0)],
         inr (sort_index ((λ r, (strike r, call r))
                            <$> filter (λ r, F < strike r) m), F)).
Proof.
  intros Hne Hnone. destruct m as [|r0 m']; [done|]. exists r0, m'.
  split; [done|]. unfold _get_median_price_table.
  rewrite filter_none by done. reflexivity.
Qed.

(** C8. For a strike matrix (strikes ascending) with a strike below [F],
    [K_0] is the strike of a row of the matrix, [K_0 < F], and the mid-quote
    table has one entry per row of the matrix, in the same order: the put
    for a strike below [K_0], the call for a strike above [K_0], and the
    arithmetic mean of call and put at [K_0]; no strike occurs twice. *)
Theorem mid_quote_table_regions (strike_matrix : list strike_row) (F : Qc) :
  sorted_by_strike strike_matrix →
  (∃ r, r ∈ strike_matrix ∧ strike r < F) →
  ∃ row0 tbl,
    _get_median_price_table strike_matrix F = mret (tbl, strike row0)
    ∧ row0 ∈ strike_matrix ∧ strike row0 < F
    ∧ tbl = mid_quote (strike row0) <$> strike_matrix
    ∧ tbl.*1 = strike <$> strike_matrix
    ∧ NoDup tbl.*1
    ∧ (strike row0, (call row0 + put row0) / Qc_of_Z 2) ∈ tbl
    ∧ (∀ k v, (k, v) ∈ tbl ↔
         ∃ r, r ∈ strike_matrix ∧ strike r = k
              ∧ ((k < strike row0 ∧ v = put r)
                 ∨ (strike row0 < k ∧ v = call r)
                 ∨ (k = strike row0 ∧ v = (call r + put r) / Qc_of_Z 2))).
Proof.
  intros Hs Hbelow.
  destruct (_get_median_price_table_below strike_matrix F Hs Hbelow)
    as (l1 & row0 & l2 & Hfilter & _ & _ & Hrun).
  assert (row0 ∈ filter (λ r, strike r < F) strike_matrix) as Hin
    by (rewrite Hfilter; apply elem_of_app; right; left).
  apply list_elem_of_filter in Hin as [Hlt Hrow0].
  exists row0, (mid_quote (strike row0) <$> strike_matrix).
  split; [done|]. split; [done|]. split; [done|]. split; [done|].
  rewrite mid_quote_fst. split; [done|]. split; [|split].
  - apply sorted_by_strike_strikes in Hs. clear -Hs.
    induction Hs as [|y l Hs IH Hall]; constructor; [|done].
    rewrite Forall_forall in Hall. intros Hy%Hall.
    by apply irreflexivity in Hy; [|apply _].
  - apply list_elem_of_fmap. exists row0. split; [|done]. unfold mid_quote.
    by rewrite !decide_False by (by apply irreflexivity; apply _).
  - intros k v. rewrite list_elem_of_fmap. unfold mid_quote. split.
    + intros (r & [= -> ->] & Hr). exists r. split; [done|]. split; [done|].
      repeat case_decide; [by left|by right; left|].
      right; right. split; [|done].
      apply Qcle_antisym; by apply Qcnot_lt_le.
    + intros (r & Hr & <- & Hcase). exists r. split; [|done]. f_equal.
      destruct Hcase as [[Hlt' ->]|[[Hlt' ->]| [Heq ->]]].
      * by rewrite decide_True.
      * rewrite decide_False, decide_True; [done..|].
        intros Hlt''. apply (irreflexivity Qclt (strike r)). by etrans.
      * rewrite Heq.
        by rewrite !decide_False by (by apply irreflexivity; apply _).
Qed.

(** The scenario matrix with [F = 2.38]: [K_0 = 2.35], the put at 2.3, the
    mean at 2.35 and the call at 2.4. *)
Lemma mid_quote_table_scenario :
  _get_median_price_table scenario_matrix (qc 238 100)
  = mret ([(qc 23 10, qc 969 10000); (qc 235 100, qc 1105 10000);
           (qc 24 10, qc 735 10000)], qc 235 100).
Proof. compute_done. Qed.

(** The same input through the theorem: ascending strikes, and the strike
    2.3 below [F = 2.38]. *)
Lemma mid_quote_table_regions_witness :
  ∃ row0 tbl,
    _get_median_price_table scenario_matrix (qc 238 100)
    = mret (tbl, strike row0)
    ∧ row0 ∈ scenario_matrix ∧ strike row0 < qc 238 100
    ∧ tbl = mid_quote (strike row0) <$> scenario_matrix
    ∧ tbl.*1 = strike <$> scenario_matrix
    ∧ NoDup tbl.*1
    ∧ (strike row0, (call row0 + put row0) / Qc_of_Z 2) ∈ tbl
    ∧ (∀ k v, (k, v) ∈ tbl ↔
         ∃ r, r ∈ scenario_matrix ∧ strike r = k
              ∧ ((k < strike row0 ∧ v = put r)
                 ∨ (strike row0 < k ∧ v = call r)
                 ∨ (k = strike row0 ∧ v = (call r + put r) / Qc_of_Z 2))).
Proof.
  apply mid_quote_table_regions.
  - repeat constructor.
  - exists scenario_anchor. split; [left|reflexivity].
Defined.

(** What the synthesizer does for every matrix.  On a non-empty strike
    matrix (strikes ascending) it returns, and its [K_0] is the strike of
    least [diff] (call minus put, taken with its sign) among the strikes
    strictly below [F], the smallest such strike on ties; when no strike
    lies below [F], [K_0] is [F]. *)
Theorem K0_least_diff_below_F (strike_matrix : list strike_row) (F : Qc) :
  strike_matrix ≠ [] → sorted_by_strike strike_matrix →
  ∃ w tbl K_0,
    _get_median_price_table strike_matrix F = (w, inr (tbl, K_0))
    ∧ least_diff_K0 strike_matrix F K_0.
Proof.
  intros Hne Hs.
  destruct (decide (Exists (λ r, strike r < F) strike_matrix)) as [Hex|Hnone].
  - apply Exists_exists in Hex.
    destruct (_get_median_price_table_below strike_matrix F Hs Hex)
      as (l1 & row & l2 & Hfilter & H1 & H2 & Hrun).
    exists [], (mid_quote (strike row) <$> strike_matrix), (strike row).
    split; [done|]. left.
    assert (row ∈ filter (λ r, strike r < F) strike_matrix) as Hin
      by (rewrite Hfilter; apply elem_of_app; right; left).
    apply list_elem_of_filter in Hin as [Hlt Hrow].
    exists row. do 3 (split; [done|]). intros r Hr Hrlt.
    apply (first_min_least_strike diff l1 l2 row); [| done | done |].
    + rewrite <- Hfilter. by apply sorted_by_strike_filter.
    + rewrite <- Hfilter. by apply list_elem_of_filter.
  - assert (∀ r, r ∈ strike_matrix → ¬ strike r < F) as Hnone'.
    { intros r Hr Hlt. apply Hnone, Exists_exists. eauto. }
    destruct (_get_median_price_table_none_below strike_matrix F Hne Hnone')
      as (r0 & m' & -> & Hrun).
    eexists _, _, F. split; [exact Hrun|]. by right.
Qed.

(** The matrix with strikes 1 and 2 and [F = 3]. *)
Lemma K0_least_diff_below_F_witness :
  ∃ w tbl K_0,
    _get_median_price_table skewed_matrix (qc 3 1) = (w, inr (tbl, K_0))
    ∧ least_diff_K0 skewed_matrix (qc 3 1) K_0.
Proof.
  apply K0_least_diff_below_F.
  - discriminate.
  - repeat constructor.
Defined.

(** The same on two hand-made matrices.  With [F = 3] and the strikes 1
    (diff -0.4) and 2 (diff 0) the code takes [K_0 = 1], while [|diff|] is
    least at strike 2; with two strikes of equal diff it takes the smaller
    strike, not the larger; and on an empty matrix it raises [IndexError]
    instead of returning [K_0 = F]. *)
Lemma K0_not_least_abs_diff :
  (∃ tbl, _get_median_price_table skewed_matrix (qc 3 1) = mret (tbl, 1)
          ∧ ¬ claimed_K0 skewed_matrix (qc 3 1) 1)
  ∧ (∃ tbl, _get_median_price_table tied_matrix (qc 3 1) = mret (tbl, 1)
            ∧ ¬ claimed_K0 tied_matrix (qc 3 1) 1)
  ∧ _get_median_price_table [] (qc 3 1) = raise IndexError.
Proof.
  split; [|split]; [| |reflexivity].
  - eexists. split; [vm_compute; reflexivity|].
    intros [(row & Hrow & Hk & _ & Hmin)|[Hnone _]].
    + unfold skewed_matrix in Hrow, Hmin.
      apply elem_of_cons in Hrow as [->|Hrow].
      * destruct (Hmin {| strike := 2; call := qc 3 10; put := qc 3 10;
                          diff := 0 |}) as [Hle _];
          [right; left|reflexivity|]. revert Hle. compute_done.
      * apply list_elem_of_singleton in Hrow as ->. revert Hk. compute_done.
    + apply (Hnone {| strike := 1; call := qc 1 10; put := qc 5 10;
                      diff := qc (-4) 10 |}); [left|reflexivity].
  - eexists. split; [vm_compute; reflexivity|].
    intros [(row & Hrow & Hk & _ & Hmin)|[Hnone _]].
    + unfold tied_matrix in Hrow, Hmin.
      apply elem_of_cons in Hrow as [->|Hrow].
      * destruct (Hmin {| strike := 2; call := qc 4 10; put := qc 3 10;
                          diff := qc 1 10 |}) as [_ Htie];
          [right; left|reflexivity|]. 
        specialize (Htie eq_refl). revert Htie. compute_done.
      * apply list_elem_of_singleton in Hrow as ->. revert Hk. compute_done.
    + apply (Hnone {| strike := 1; call := qc 6 10; put := qc 5 10;
                      diff := qc 1 10 |}); [left|reflexivity].
Qed.

(** ** The strike matrix builder establishes the invariants used above *)

Lemma dropna_sorted (matrix : list pivot_row) :
  StronglySorted Qclt (pv_strike <$> matrix) → sorted_by_strike (dropna matrix).
Proof.
  unfold dropna. induction matrix as [|r matrix IH]; [constructor|].
  rewrite fmap_cons. intros [Hall Hs]%StronglySorted_cons. cbn [omap list_omap].
  destruct (pv_call r) as [c|]; [|by apply IH].
  destruct (pv_put r) as [p|]; [|by apply IH].
  destruct (pv_diff r) as [d|]; [|by apply IH].
  cbn. constructor; [by apply IH|].
  rewrite Forall_forall in Hall. apply Forall_forall.
  intros row (r' & Hr' & Hrow)%list_elem_of_omap.
  unfold strike_lt. cbn [strike].
  destruct (pv_call r'), (pv_put r'), (pv_diff r'); simplify_eq/=.
  apply Hall. by apply list_elem_of_fmap_2.
Qed.

(** Whenever the builder returns, the matrix left by [dropna] has strictly
    ascending strikes, and in each of its rows [diff] is call minus put. *)
Lemma _build_strike_matrix_invariant (df : list quote) (w : list event)
    (matrix : list pivot_row) :
  _build_strike_matrix df = (w, inr matrix) →
  sorted_by_strike (dropna matrix)
  ∧ ∀ row, row ∈ dropna matrix → diff row = call row - put row.
Proof.
  unfold _build_strike_matrix. repeat case_decide; try discriminate.
  intros [= <- <-]. split.
  - apply dropna_sorted. rewrite <- list_fmap_compose.
    erewrite list_fmap_ext; [rewrite list_fmap_id|by intros].
    apply np_sort_unique_sorted.
  - intros row (r & (k & -> & _)%list_elem_of_fmap & Hrow)%list_elem_of_omap.
    cbn in Hrow.
    destruct (pivot_cell df k Call), (pivot_cell df k Put); simplify_eq/=.
    done.
Qed.

(** ** The batch preparer: [prepare_data2calc] in general *)

Lemma mapM_inr {A B} (f : A → M B) (l : list A) w (k : list B) :
  mapM f l = (w, inr k) → Forall2 (λ x y, ∃ w', f x = (w', inr y)) l k.
Proof.
  revert w k. induction l as [|x l IH]; intros w k; cbn [mapM].
  - intros [= <- <-]. constructor.
  - intros (w1 & w2 & y & Hy & Hrest & ->)%M_bind_inr.
    apply M_bind_inr in Hrest as (w3 & w4 & k' & Hk' & [= <- <-] & ->).
    constructor; eauto.
Qed.

Lemma date_loc_inr {A} (s : list (Z * A)) (d : Z) w (x : A) :
  date_loc s d = (w, inr x) → (d, x) ∈ s.
Proof.
  unfold date_loc. destruct (list_find _ s) as [[i [d' y]]|] eqn:Hfind;
    [|discriminate].
  intros [= <- <-]. apply list_find_Some in Hfind as (Hi & Hd & _).
  cbn in Hd. subst d'. by eapply list_elem_of_lookup_2.
Qed.

Lemma NoDup_date_inj {A} (s : list (Z * A)) (d : Z) (x y : A) :
  NoDup s.*1 → (d, x) ∈ s → (d, y) ∈ s → x = y.
Proof.
  induction s as [|[d' z] s IH]; [by intros _ ?%elem_of_nil|].
  rewrite fmap_cons, NoDup_cons. cbn [fst].
  intros [Hp Hnd] [[= <- <-]|Hx]%elem_of_cons [[= <-]|Hy]%elem_of_cons; auto.
  - destruct Hp. by apply (list_elem_of_fmap_2 fst s (d, y)).
  - simplify_eq. destruct Hp. by apply (list_elem_of_fmap_2 fst s (_, x)).
Qed.

Lemma np_min_inr (a : list Qc) w (x : Qc) :
  np_min a = (w, inr x) → ∃ y a', a = y :: a' ∧ x = foldr Qcmin y a'.
Proof. destruct a as [|y a']; [discriminate|]. intros [= <- <-]. eauto. Qed.

Lemma np_max_inr (a : list Qc) w (x : Qc) :
  np_max a = (w, inr x) → ∃ y a', a = y :: a' ∧ x = foldr Qcmax y a'.
Proof. destruct a as [|y a']; [discriminate|]. intros [= <- <-]. eauto. Qed.

(** Whenever the preparer returns, each row of its table carries in
    [near_rate] the smaller and in [next_rate] the larger of the two rates
    that the resolver returns for the day's curve and the row's two
    maturities. *)
Lemma prepare_data2calc_rates (opt_data : list quote)
    (shibor_data : gmap Z (gmap Z Qc)) w (rows : list enriched) (row : enriched) :
  prepare_data2calc opt_data shibor_data = (w, inr rows) → row ∈ rows →
  ∃ curve w' rn rx,
    shibor_data !! date (base row) = Some curve
    ∧ _get_free_rate curve (near_maturity row) (next_maturity row)
      = (w', inr (rn, rx))
    ∧ near_rate row = Qcmin rx rn
    ∧ next_rate row = Qcmax rx rn.
Proof.
  unfold prepare_data2calc.
  intros (w1 & w1' & groups & _ & Hrun & _)%M_bind_inr Hrow.
  set (fod := concat groups) in *.
  set (mser := (λ g : Z * list quote, (g.1, unique (maturity <$> g.2)))
                 <$> groupby date fod) in *.
  assert (NoDup mser.*1) as Hnd.
  { subst mser. unfold groupby. rewrite <- !list_fmap_compose.
    erewrite list_fmap_ext; [rewrite list_fmap_id|by intros].
    rewrite merge_sort_Permutation. apply NoDup_unique. }
  apply M_bind_inr in Hrun as (w2 & w2' & sd & Hsd%mapM_inr & Hrun & _).
  apply M_bind_inr in Hrun as (w3 & w3' & sel_rate & Hsel%mapM_inr & Hrun & _).
  apply M_bind_inr in Hrun as (w4 & w4' & df & Hdf%mapM_inr & [= _ <-] & _).
  apply list_elem_of_bind in Hrow as (q & Hrow & Hq).
  destruct (list_find _ df) as [[i [d0 [[[a b] c] d]]]|] eqn:Hfind;
    [|by apply elem_of_nil in Hrow].
  cbn in Hrow. apply list_elem_of_singleton in Hrow as ->. cbn.
  apply list_find_Some in Hfind as (Hi & Hd0 & _). cbn in Hd0. subst d0.
  (* the row of [df] comes from an entry [m] of [maturity_ser] *)
  destruct (Forall2_lookup_r _ _ _ _ _ Hdf Hi) as (m & Hm & w5 & Hentry).
  apply M_bind_inr in Hentry as (? & ? & rates & Hrates & Hentry & _).
  apply M_bind_inr in Hentry as (? & ? & a' & Ha & Hentry & _).
  apply M_bind_inr in Hentry as (? & ? & b' & Hb & Hentry & _).
  apply M_bind_inr in Hentry as (? & ? & c' & Hc & Hentry & _).
  apply M_bind_inr in Hentry as (? & ? & d' & Hd & [= _ Hdate <- <- <- <-] & _).
  apply np_min_inr in Hc as (? & ? & [= <- <-] & ->).
  apply np_max_inr in Hd as (? & ? & [= <- <-] & ->). cbn [foldr].
  (* the pair of rates comes from an entry [cx] of the selected curves *)
  apply date_loc_inr, list_elem_of_lookup_1 in Hrates as [j Hj].
  destruct (Forall2_lookup_r _ _ _ _ _ Hsel Hj) as (cx & Hcx & w6 & Hsel_x).
  apply M_bind_inr in Hsel_x as (? & ? & m1 & Hm1 & Hsel_x & _).
  apply M_bind_inr in Hsel_x as (? & ? & near & Hnear & Hsel_x & _).
  apply M_bind_inr in Hsel_x as (? & ? & m2 & Hm2 & Hsel_x & _).
  apply M_bind_inr in Hsel_x as (? & ? & next & Hnext & Hsel_x & _).
  apply M_bind_inr in Hsel_x as (w7 & ? & r & Hr & [= _ Hx1 ->] & _).
  apply date_loc_inr in Hm1, Hm2.
  assert ((m.1, m.2) ∈ mser) as Hm_in.
  { destruct m. by eapply list_elem_of_lookup_2. }
  rewrite Hx1 in Hm1, Hm2.
  rewrite (NoDup_date_inj _ _ _ _ Hnd Hm1 Hm_in) in Hnear.
  rewrite (NoDup_date_inj _ _ _ _ Hnd Hm2 Hm_in) in Hnext.
  assert (near = a') as -> by (rewrite Ha in Hnear; congruence).
  assert (next = b') as -> by (rewrite Hb in Hnext; congruence).
  (* and that curve is the day's row of the rate table *)
  destruct (Forall2_lookup_r _ _ _ _ _ Hsd Hcx) as (d1 & _ & w8 & Hcurve).
  destruct (shibor_data !! d1) as [curve|] eqn:Hlook; [|discriminate].
  injection Hcurve as _ <-. cbn [fst snd] in *.
  exists curve, w7, rates.1, rates.2. rewrite <- Hdate, <- Hx1.
  split; [done|]. split; [by destruct rates|]. done.
Qed.

(** * Further properties *)

(** ** The strike-weight calculator: [calc_delta_k_table] *)

Lemma np_index_last {A} (a : list A) (m : nat) (x : A) :
  (0 < m ≤ length a)%nat → a !! (length a - m)%nat = Some x →
  np_index a (- Z.of_nat m) = mret x.
Proof.
  intros Hm Hx. unfold np_index.
  rewrite (decide_True (P := (- Z.of_nat m < 0)%Z)) by lia.
  rewrite decide_True by lia.
  replace (Z.to_nat (Z.of_nat (length a) + - Z.of_nat m)) with (length a - m)%nat
    by lia.
  by rewrite Hx.
Qed.

Lemma nth_lookup_Qc (l : list Qc) (i : nat) :
  (i < length l)%nat → l !! i = Some (nth i l 0).
Proof.
  intros Hi. destruct (lookup_lt_is_Some_2 l i Hi) as [x Hx].
  by rewrite Hx, (nth_lookup_Some _ _ _ _ Hx).
Qed.

(** The weights as the code lays them out: the first, the interior ones,
    the last. *)
Lemma calc_delta_k_table_layout (s : list (Qc * Qc)) :
  (2 ≤ length s)%nat →
  let K := s.*1 in
  calc_delta_k_table s
  = mret (zip K ((nth 1 K 0 - nth 0 K 0)
                 :: zip_with (λ a b, qc 1 2 * (a - b))
                      (drop 2 K) (take (length K - 2) K)
                 ++ [nth (length K - 1) K 0 - nth (length K - 2) K 0])).
Proof.
  intros Hlen K. unfold calc_delta_k_table. fold K.
  assert (length K = length s) as HK by (unfold K; apply length_fmap).
  assert (np_index K 0 = mret (nth 0 K 0)) as ->
    by (apply (np_index_nat K 0), nth_lookup_Qc; lia).
  assert (np_index K 1 = mret (nth 1 K 0)) as ->
    by (apply (np_index_nat K 1), nth_lookup_Qc; lia).
  assert (np_index K (-1) = mret (nth (length K - 1) K 0)) as ->
    by (apply (np_index_last K 1); [lia|apply nth_lookup_Qc; lia]).
  assert (np_index K (-2) = mret (nth (length K - 2) K 0)) as ->
    by (apply (np_index_last K 2); [lia|apply nth_lookup_Qc; lia]).
  rewrite !M_bind_ret. do 2 f_equal.
  set (mid := zip_with _ (drop 2 K) _).
  assert (length mid = (length K - 2)%nat) as Hmid.
  { unfold mid. rewrite length_zip_with, length_drop, length_take. lia. }
  destruct (length K) as [|[|n]] eqn:Hn; [lia..|].
  cbn [replicate]. cbn [insert list_insert]. unfold set_slice.
  cbn [take app length]. rewrite Hmid.
  replace (S (S n) - 2)%nat with n by lia.
  replace (1 + n)%nat with (S n) by lia. cbn [drop].
  change (Q2Qc 0 :: replicate n (Q2Qc 0)) with (replicate (S n) (Q2Qc 0)).
  rewrite drop_replicate. replace (S n - n)%nat with 1%nat by lia.
  cbn [replicate].
  replace (S (S n) - 1)%nat with (S (length mid + 0)) by (rewrite Hmid; lia).
  cbn [insert list_insert]. f_equal.
  rewrite (insert_app_r mid [0] 0). reflexivity.
Qed.

(** The weights, position by position. *)
Lemma delta_k_lookup (s : list (Qc * Qc)) :
  (2 ≤ length s)%nat →
  ∃ d, calc_delta_k_table s = mret d
       ∧ d.*1 = s.*1
       ∧ length d = length s
       ∧ ∀ i, (i < length s)%nat → d.*2 !! i = Some (delta_k_weight s.*1 i).
Proof.
  intros Hlen. rewrite (calc_delta_k_table_layout s Hlen).
  set (K := s.*1).
  assert (length K = length s) as HK by (unfold K; apply length_fmap).
  set (mid := zip_with _ (drop 2 K) _).
  assert (length mid = (length K - 2)%nat) as Hmid.
  { unfold mid. rewrite length_zip_with, length_drop, length_take. lia. }
  set (W := _ :: mid ++ [_]).
  assert (length W = length K) as HW.
  { unfold W. cbn [length]. rewrite length_app, Hmid. cbn [length]. lia. }
  exists (zip K W). split; [done|]. split; [by rewrite fst_zip by lia|].
  split; [rewrite length_zip_with; lia|].
  rewrite snd_zip by lia. intros i Hi. unfold delta_k_weight. fold K.
  case_decide as H0; [by subst i|].
  destruct i as [|i]; [done|]. unfold W. rewrite lookup_cons.
  case_decide as Hlast.
  - rewrite lookup_app_r by lia.
    replace (i - length mid)%nat with 0%nat by lia. reflexivity.
  - rewrite lookup_app_l by lia. unfold mid.
    rewrite lookup_zip_with, lookup_drop, lookup_take_lt by lia.
    rewrite !nth_lookup_Qc by lia. cbn.
    repeat f_equal; lia.
Qed.

(** X1. On a table of at least two strikes the calculator returns one
    weight per strike, on the same index in the same order: the distance to
    the second strike at the first position, the distance from the
    last-but-one strike at the last position, and half the distance between
    the two neighbours at every position in between.  Every entry of the
    uninitialised array is overwritten. *)
Theorem calc_delta_k_table_weights (s : list (Qc * Qc)) :
  (2 ≤ length s)%nat →
  ∃ d, calc_delta_k_table s = mret d
       ∧ d.*1 = s.*1
       ∧ length d = length s
       ∧ ∀ i, (i < length s)%nat → d.*2 !! i = Some (delta_k_weight s.*1 i).
Proof. apply delta_k_lookup. Qed.

(** The four strikes 2.3, 2.35, 2.4, 2.5 get the weights 0.05, 0.05, 0.075
    and 0.1. *)
Lemma calc_delta_k_table_weights_witness :
  ∃ d, calc_delta_k_table sample_table = mret d
       ∧ d.*1 = sample_table.*1
       ∧ length d = length sample_table
       ∧ ∀ i, (i < length sample_table)%nat →
              d.*2 !! i = Some (delta_k_weight sample_table.*1 i).
Proof. apply calc_delta_k_table_weights. cbn. lia. Defined.

Lemma calc_delta_k_table_sample :
  calc_delta_k_table sample_table
  = mret [ (qc 23 10, qc 5 100); (qc 235 100, qc 5 100);
           (qc 24 10, qc 75 1000); (qc 25 10, qc 1 10) ].
Proof. compute_done. Qed.

Lemma delta_k_short (s : list (Qc * Qc)) :
  (length s < 2)%nat → calc_delta_k_table s = raise IndexError.
Proof.
  intros Hlen. destruct s as [|p [|q s]]; [reflexivity|reflexivity|].
  cbn in Hlen. lia.
Qed.

(** X2. A table with fewer than two strikes has no weights: the calculator
    raises [IndexError] and prints nothing. *)
Theorem calc_delta_k_table_short (s : list (Qc * Qc)) :
  (length s < 2)%nat → calc_delta_k_table s = raise IndexError.
Proof. apply delta_k_short. Qed.

Lemma calc_delta_k_table_short_witness :
  calc_delta_k_table [(qc 23 10, qc 969 10000)] = raise IndexError.
Proof. apply calc_delta_k_table_short. cbn. lia. Defined.

Lemma np_sum_app (a b : list Qc) : np_sum (a ++ b) = np_sum a + np_sum b.
Proof.
  induction a as [|x a IH]; cbn [app np_sum foldr].
  - unfold np_sum. cbn. ring.
  - unfold np_sum in *. cbn [foldr]. rewrite IH. ring.
Qed.

Lemma np_sum_zip_diff (c : Qc) (a b : list Qc) :
  length a = length b →
  np_sum (zip_with (λ x y, c * (x - y)) a b) = c * (np_sum a - np_sum b).
Proof.
  revert b. induction a as [|x a IH]; intros [|y b] Hlen; simplify_eq/=.
  - unfold np_sum. cbn. ring.
  - unfold np_sum in *. cbn [foldr]. rewrite IH by done. ring.
Qed.

Lemma drop_last_two (K : list Qc) :
  (2 ≤ length K)%nat →
  drop (length K - 2) K = [nth (length K - 2) K 0; nth (length K - 1) K 0].
Proof.
  intros Hlen.
  rewrite (drop_S K (nth (length K - 2) K 0) (length K - 2))
    by (apply nth_lookup_Qc; lia).
  replace (S (length K - 2)) with (length K - 1)%nat by lia.
  rewrite (drop_S K (nth (length K - 1) K 0) (length K - 1))
    by (apply nth_lookup_Qc; lia).
  by rewrite drop_ge by lia.
Qed.

(** X3. The weights of a table of at least two strikes add up to one and a
    half times the distance between the last and the first strike, less half
    the distance between the last-but-one and the second strike. *)
Theorem calc_delta_k_table_sum (s d : list (Qc * Qc)) :
  (2 ≤ length s)%nat → calc_delta_k_table s = mret d →
  let K := s.*1 in
  np_sum d.*2
  = qc 3 2 * (nth (length K - 1) K 0 - nth 0 K 0)
    - qc 1 2 * (nth (length K - 2) K 0 - nth 1 K 0).
Proof.
  intros Hlen Hrun K. rewrite (calc_delta_k_table_layout s Hlen) in Hrun.
  fold K in Hrun. injection Hrun as <-.
  assert (length K = length s) as HK by (unfold K; apply length_fmap).
  set (mid := zip_with _ (drop 2 K) _).
  assert (length (drop 2 K) = length (take (length K - 2) K)) as Hmid
    by (rewrite length_drop, length_take; lia).
  assert (length mid = (length K - 2)%nat) as Hlmid.
  { unfold mid. rewrite length_zip_with, length_drop, length_take. lia. }
  rewrite snd_zip by (cbn [length]; rewrite length_app, Hlmid; cbn [length]; lia).
  change (np_sum (?x :: ?l)) with (x + np_sum l).
  rewrite np_sum_app. unfold mid. rewrite np_sum_zip_diff by done.
  assert (np_sum K = nth 0 K 0 + (nth 1 K 0 + np_sum (drop 2 K))) as H1.
  { destruct K as [|k0 [|k1 K']]; cbn in HK; [lia..|]. reflexivity. }
  assert (np_sum K = np_sum (take (length K - 2) K)
                     + (nth (length K - 2) K 0 + (nth (length K - 1) K 0 + 0)))
    as H2.
  { rewrite <- (take_drop (length K - 2) K) at 1.
    rewrite np_sum_app, drop_last_two by lia. reflexivity. }
  change (np_sum [?x]) with (x + 0).
  set (a := np_sum (drop 2 K)) in *. set (b := np_sum (take _ K)) in *.
  set (t := np_sum K) in *.
  set (k0 := nth 0 K 0) in *. set (k1 := nth 1 K 0) in *.
  set (l1 := nth (length K - 1) K 0) in *.
  set (l2 := nth (length K - 2) K 0) in *.
  clearbody a b t k0 k1 l1 l2. clear mid Hlmid Hmid.
  qc2q. lra.
Qed.

(** On the sample table: 0.05 + 0.05 + 0.075 + 0.1 = 1.5 * 0.2 - 0.5 * 0.05. *)
Lemma calc_delta_k_table_sum_witness :
  np_sum [qc 5 100; qc 5 100; qc 75 1000; qc 1 10]
  = qc 3 2 * (qc 25 10 - qc 23 10) - qc 1 2 * (qc 24 10 - qc 235 100).
Proof.
  apply (calc_delta_k_table_sum sample_table
           [ (qc 23 10, qc 5 100); (qc 235 100, qc 5 100);
             (qc 24 10, qc 75 1000); (qc 25 10, qc 1 10) ]).
  - cbn. lia.
  - compute_done.
Defined.

Lemma delta_k_positive (s d : list (Qc * Qc)) :
  StronglySorted Qclt s.*1 → calc_delta_k_table s = mret d →
  Forall (λ w, 0 < w) d.*2.
Proof.
  intros Hs Hrun.
  assert (2 ≤ length s)%nat as Hlen.
  { destruct (decide (2 ≤ length s)%nat) as [|Hshort]; [done|].
    rewrite delta_k_short in Hrun by lia. discriminate. }
  destruct (delta_k_lookup s Hlen) as (d' & Hrun' & _ & Hd & Hw).
  rewrite Hrun in Hrun'. injection Hrun' as <-.
  set (K := s.*1) in *.
  assert (length K = length s) as HK by (unfold K; apply length_fmap).
  assert (∀ i j, (i < j < length K)%nat → nth i K 0 < nth j K 0) as Hasc.
  { intros i j Hij.
    rewrite <- (take_drop j K) in Hs.
    apply StronglySorted_app in Hs as (Hlt & _ & _). apply Hlt.
    - apply list_elem_of_lookup. exists i.
      rewrite lookup_take_lt by lia. apply nth_lookup_Qc. lia.
    - apply list_elem_of_lookup. exists 0%nat.
      rewrite lookup_drop, Nat.add_0_r. apply nth_lookup_Qc. lia. }
  apply Forall_lookup. intros i w Hi.
  assert (i < length s)%nat as Hlt.
  { apply lookup_lt_Some in Hi. rewrite length_fmap in Hi. lia. }
  rewrite (Hw i Hlt) in Hi. injection Hi as <-. unfold delta_k_weight.
  repeat case_decide.
  - pose proof (Hasc 0%nat 1%nat ltac:(lia)) as Hlt'.
    set (x := nth 0 K 0) in *. set (y := nth 1 K 0) in *.
    clearbody x y. clear -Hlt'. qc2q. lra.
  - pose proof (Hasc (length K - 2)%nat (length K - 1)%nat ltac:(lia)) as Hlt'.
    set (x := nth (length K - 2) K 0) in *.
    set (y := nth (length K - 1) K 0) in *.
    clearbody x y. clear -Hlt'. qc2q. lra.
  - pose proof (Hasc (i - 1)%nat (i + 1)%nat ltac:(lia)) as Hlt'.
    set (x := nth (i - 1) K 0) in *. set (y := nth (i + 1) K 0) in *.
    clearbody x y. clear -Hlt'. qc2q. lra.
Qed.

(** X4. On strictly ascending strikes every weight is positive. *)
Theorem calc_delta_k_table_positive (s d : list (Qc * Qc)) :
  StronglySorted Qclt s.*1 → calc_delta_k_table s = mret d →
  Forall (λ w, 0 < w) d.*2.
Proof. apply delta_k_positive. Qed.

Lemma calc_delta_k_table_positive_witness :
  Forall (λ w, 0 < w) [qc 5 100; qc 5 100; qc 75 1000; qc 1 10].
Proof.
  apply (calc_delta_k_table_positive sample_table
           [ (qc 23 10, qc 5 100); (qc 235 100, qc 5 100);
             (qc 24 10, qc 75 1000); (qc 25 10, qc 1 10) ]).
  - repeat constructor.
  - compute_done.
Defined.

(** ** The strike matrix builder: [_build_strike_matrix] and [dropna] *)

Lemma pivot_cell_Some (df : list quote) (k : Qc) (t : option_type) (x : Qc) :
  pivot_cell df k t = Some x ↔ closes_at df k t ≠ [] ∧ x = np_mean (closes_at df k t).
Proof.
  unfold pivot_cell. fold (closes_at df k t).
  case_decide as Hnil; [rewrite Hnil|]; split.
  - discriminate.
  - by intros [? _].
  - intros [= <-]. done.
  - by intros [_ ->].
Qed.

Lemma elem_of_dropna (matrix : list pivot_row) (row : strike_row) :
  row ∈ dropna matrix ↔
  ∃ r, r ∈ matrix ∧ pv_strike r = strike row ∧ pv_call r = Some (call row)
       ∧ pv_put r = Some (put row) ∧ pv_diff r = Some (diff row).
Proof.
  unfold dropna. rewrite list_elem_of_omap. split.
  - intros (r & Hr & Hrow). exists r. split; [done|].
    destruct (pv_call r), (pv_put r), (pv_diff r); simplify_eq/=. done.
  - intros (r & Hr & Hk & Hc & Hp & Hd). exists r. split; [done|].
    rewrite Hc, Hp, Hd. cbn. f_equal. destruct row. cbn in *. by subst.
Qed.

(** The rows that [dropna] leaves of a built matrix. *)
Lemma dropna_rows (df : list quote) (w : list event)
    (matrix : list pivot_row) :
  _build_strike_matrix df = (w, inr matrix) →
  w = []
  ∧ sorted_by_strike (dropna matrix)
  ∧ ∀ row, row ∈ dropna matrix ↔
      closes_at df (strike row) Call ≠ []
      ∧ closes_at df (strike row) Put ≠ []
      ∧ call row = np_mean (closes_at df (strike row) Call)
      ∧ put row = np_mean (closes_at df (strike row) Put)
      ∧ diff row = call row - put row.
Proof.
  intros Hrun.
  destruct (_build_strike_matrix_invariant df w matrix Hrun) as [Hs Hdiff].
  unfold _build_strike_matrix in Hrun. repeat case_decide; try discriminate.
  injection Hrun as <- <-. split; [done|]. split; [done|].
  intros row. rewrite elem_of_dropna. split.
  - intros (r & (k & -> & Hk)%list_elem_of_fmap & Hstrike & Hc & Hp & Hd).
    cbn in Hstrike, Hc, Hp, Hd. subst k.
    apply pivot_cell_Some in Hc as [Hc ->].
    apply pivot_cell_Some in Hp as [Hp ->].
    rewrite (proj2 (pivot_cell_Some _ _ _ _) (conj Hc eq_refl)) in Hd.
    rewrite (proj2 (pivot_cell_Some _ _ _ _) (conj Hp eq_refl)) in Hd.
    cbn in Hd. injection Hd as <-. done.
  - intros (Hc & Hp & Hcall & Hput & Hd).
    eexists. split.
    + apply list_elem_of_fmap. exists (strike row). split; [done|].
      rewrite elem_of_np_sort, elem_of_unique.
      destruct (closes_at df (strike row) Call) as [|x xs] eqn:Hcs; [done|].
      assert (x ∈ closes_at df (strike row) Call) as Hx by (rewrite Hcs; left).
      apply list_elem_of_fmap in Hx as (q & _ & [[Hq _] Hin]%list_elem_of_filter).
      rewrite <- Hq. by apply list_elem_of_fmap_2.
    + cbn.
      rewrite (proj2 (pivot_cell_Some df (strike row) Call (call row)))
        by done.
      rewrite (proj2 (pivot_cell_Some df (strike row) Put (put row)))
        by done.
      cbn. by rewrite Hd.
Qed.

(** X5. Whenever the builder returns it has printed nothing, and the strike
    matrix left by [dropna] has strictly ascending strikes and exactly one
    row for each strike at which both a call and a put are quoted: its call
    (put) price is the mean of the call (put) closes quoted at that strike,
    and its diff is the call price minus the put price.  A strike with
    quotes for one leg only has no row. *)
Theorem strike_matrix_rows (df : list quote) (w : list event)
    (matrix : list pivot_row) :
  _build_strike_matrix df = (w, inr matrix) →
  w = []
  ∧ sorted_by_strike (dropna matrix)
  ∧ ∀ row, row ∈ dropna matrix ↔
      closes_at df (strike row) Call ≠ []
      ∧ closes_at df (strike row) Put ≠ []
      ∧ call row = np_mean (closes_at df (strike row) Call)
      ∧ put row = np_mean (closes_at df (strike row) Put)
      ∧ diff row = call row - put row.
Proof. apply dropna_rows. Qed.

(** With two calls (0.10 and 0.14) and one put (0.08) at the strike 2.3 the
    matrix has the single row 2.3 / 0.12 / 0.08 / 0.04. *)
Lemma strike_matrix_rows_witness :
  ∃ matrix,
    _build_strike_matrix repeated_quotes = mret matrix
    ∧ dropna matrix = [ {| strike := qc 23 10; call := qc 12 100;
                           put := qc 8 100; diff := qc 4 100 |} ]
    ∧ ∀ row, row ∈ dropna matrix ↔
        closes_at repeated_quotes (strike row) Call ≠ []
        ∧ closes_at repeated_quotes (strike row) Put ≠ []
        ∧ call row = np_mean (closes_at repeated_quotes (strike row) Call)
        ∧ put row = np_mean (closes_at repeated_quotes (strike row) Put)
        ∧ diff row = call row - put row.
Proof.
  destruct (_build_strike_matrix repeated_quotes) as [w [e|matrix]] eqn:Hrun.
  { vm_compute in Hrun. discriminate. }
  destruct (strike_matrix_rows repeated_quotes w matrix Hrun) as (-> & _ & Hrows).
  exists matrix. split; [done|]. split; [|done].
  clear Hrows. vm_compute in Hrun. injection Hrun as <-. compute_done.
Defined.

(** ** The per-term pipeline: [_get_sigma] *)

Lemma lower_ascii_idem (c : ascii) : lower_ascii (lower_ascii c) = lower_ascii c.
Proof. destruct c as [[] [] [] [] [] [] [] []]; vm_compute; reflexivity. Qed.

Lemma lower_idem (s : string) : lower (lower s) = lower s.
Proof.
  induction s as [|c s IH]; [done|]. cbn [lower].
  by rewrite lower_ascii_idem, IH.
Qed.

(** X6. The method name is checked before the table is looked at: without a
    method, or with a method that is neither [near] nor [next] once
    lower-cased, [_get_sigma] raises [ValueError] whatever the table; and the
    name is case-insensitive, a method and its lower-case form giving the
    same result. *)
Theorem get_sigma_method (np_exp : Qc → Qc) (df : list enriched) :
  _get_sigma np_exp df None = raise (ValueError "method参数不能为空")
  ∧ (∀ method, lower method ≠ "near" → lower method ≠ "next" →
       _get_sigma np_exp df (Some method)
       = raise (ValueError "method参数必须为near或者next"))
  ∧ (∀ method,
       _get_sigma np_exp df (Some method)
       = _get_sigma np_exp df (Some (lower method))).
Proof.
  split; [reflexivity|]. split.
  - intros method Hnear Hnext. unfold _get_sigma.
    rewrite decide_True; [done|].
    rewrite !elem_of_cons, elem_of_nil. tauto.
  - intros method. unfold _get_sigma. by rewrite lower_idem.
Qed.

Lemma _get_sigma_valid (np_exp : Qc → Qc) (df : list enriched) (method : string) :
  lower method = "near" ∨ lower method = "next" →
  _get_sigma np_exp df (Some method)
  = (matrix ← _build_strike_matrix (base <$> df);
     let strike_matrix := dropna matrix in
     strike_row ← _get_min_strike_diff strike_matrix;
     maturities ← mapM (column (lower method +:+ "_maturity")) df;
     term ← np_index maturities 0;
     rates ← mapM (column (lower method +:+ "_rate")) df;
     term_rate ← np_index rates 0;
     let F := calc_F np_exp (strike strike_row) term_rate term
                     (call strike_row) (put strike_row) in
     '(median_table, K_0) ← _get_median_price_table strike_matrix F;
     delta_k ← calc_delta_k_table median_table;
     sigma ← calc_sigma np_exp K_0 median_table.*1 delta_k.*2 median_table.*2
                        F term_rate term;
     mret {| sv_strike_matrix := strike_matrix;
             sv_median_table := median_table;
             sv_delta_k := delta_k;
             sv_F := F;
             sv_K0 := K_0;
             sv_term := term;
             sv_term_rate := term_rate;
             sv_sigma := sigma |}).
Proof.
  intros Hvalid. unfold _get_sigma. rewrite decide_False; [done|].
  intros Hnot. apply Hnot. rewrite !elem_of_cons. tauto.
Qed.

Lemma filter_fmap_base (P : quote → Prop) `{∀ q, Decision (P q)}
    (df : list enriched) :
  filter P (base <$> df) = base <$> filter (λ q, P (base q)) df.
Proof.
  induction df as [|q df IH]; [done|].
  rewrite fmap_cons, !filter_cons. cbn. case_decide; by rewrite IH.
Qed.

(** X7. A term without one of the two legs has no strike matrix: when the
    table has no call quote (an empty table included) [_get_sigma] raises
    [KeyError('call')], and when it has call quotes only it raises
    [KeyError('put')]. *)
Theorem get_sigma_missing_leg (np_exp : Qc → Qc) (df : list enriched)
    (method : string) :
  lower method = "near" ∨ lower method = "next" →
  (Forall (λ q, contract_type (base q) = Put) df →
     _get_sigma np_exp df (Some method) = raise (KeyError_column "call"))
  ∧ (df ≠ [] → Forall (λ q, contract_type (base q) = Call) df →
     _get_sigma np_exp df (Some method) = raise (KeyError_column "put")).
Proof.
  intros Hvalid. rewrite (_get_sigma_valid np_exp df method Hvalid).
  unfold _build_strike_matrix. rewrite !Forall_forall. split.
  - intros Hput. rewrite decide_True; [done|].
    apply filter_none. intros q (e & -> & He)%list_elem_of_fmap Hcall.
    rewrite (Hput e He) in Hcall. discriminate.
  - intros Hne Hcall. rewrite decide_False.
    + rewrite decide_True; [done|].
      apply filter_none. intros q (e & -> & He)%list_elem_of_fmap Hput.
      rewrite (Hcall e He) in Hput. discriminate.
    + rewrite filter_all.
      * by destruct df.
      * intros q (e & -> & He)%list_elem_of_fmap. by apply Hcall.
Qed.

Lemma get_sigma_missing_leg_witness :
  _get_sigma sample_exp [] (Some "NEAR") = raise (KeyError_column "call")
  ∧ _get_sigma sample_exp
      (enrich (qc 3 100) (qc 5 100) <$> take 1 unpaired_quotes) (Some "Next")
    = raise (KeyError_column "put").
Proof.
  split.
  - apply (get_sigma_missing_leg sample_exp [] "NEAR"); [by left|].
    constructor.
  - apply (get_sigma_missing_leg sample_exp _ "Next"); [by right|done|].
    repeat constructor.
Defined.

(** X8. When both legs are quoted but no strike carries both a call and a
    put, [dropna] leaves an empty matrix and [_get_sigma] raises the
    [ValueError] of [idxmin] on an empty sequence. *)
Theorem get_sigma_no_complete_strike (np_exp : Qc → Qc) (df : list enriched)
    (method : string) :
  lower method = "near" ∨ lower method = "next" →
  Exists (λ q, contract_type (base q) = Call) df →
  Exists (λ q, contract_type (base q) = Put) df →
  (∀ k, closes_at (base <$> df) k Call = []
        ∨ closes_at (base <$> df) k Put = []) →
  _get_sigma np_exp df (Some method)
  = raise (ValueError "attempt to get argmin of an empty sequence").
Proof.
  intros Hvalid Hcall Hput Hnone.
  rewrite (_get_sigma_valid np_exp df method Hvalid).
  destruct (_build_strike_matrix (base <$> df)) as [w [e|matrix]] eqn:Hrun.
  { exfalso. unfold _build_strike_matrix in Hrun.
    apply Exists_exists in Hcall as (qc & Hqc & Hc).
    apply Exists_exists in Hput as (qp & Hqp & Hp).
    repeat case_decide; try discriminate.
    - eapply (filter_nil_not_elem_of _ _ (base qc)); [done|done|].
      by apply list_elem_of_fmap_2.
    - eapply (filter_nil_not_elem_of _ _ (base qp)); [done|done|].
      by apply list_elem_of_fmap_2. }
  destruct (dropna_rows _ _ _ Hrun) as (-> & _ & Hrows).
  assert (dropna matrix = []) as Hempty.
  { apply elem_of_nil_inv. intros row (Hc & Hp & _)%Hrows.
    destruct (Hnone (strike row)); done. }
  cbn. rewrite Hempty. reflexivity.
Qed.

(** Calls at 2.3 and 2.4, a put at 2.35. *)
Lemma get_sigma_no_complete_strike_witness :
  _get_sigma sample_exp (enrich (qc 3 100) (qc 5 100) <$> unpaired_quotes)
             (Some "near")
  = raise (ValueError "attempt to get argmin of an empty sequence").
Proof.
  apply get_sigma_no_complete_strike.
  - by left.
  - apply Exists_exists. eexists. split; [left|reflexivity].
  - apply Exists_exists. eexists. split; [right; left|reflexivity].
  - intros k. unfold closes_at.
    destruct (decide (k = qc 235 100)) as [->|Hk].
    + left. vm_compute. reflexivity.
    + right. rewrite filter_none; [done|]. intros q Hq [Hs Ht].
      change (base <$> (enrich (qc 3 100) (qc 5 100) <$> unpaired_quotes))
        with unpaired_quotes in Hq.
      unfold unpaired_quotes in Hq.
      repeat (apply elem_of_cons in Hq as [->|Hq]); cbn in Hs, Ht;
        try discriminate; [congruence|by apply elem_of_nil in Hq].
Defined.

(** ** The mid-quote synthesizer without a strike below [F] *)

(** X9. On a non-empty strike matrix (strikes ascending) without a strike
    below [F], the synthesizer warns once, with [F] and the smallest strike,
    returns [K_0 = F], and its table holds the call price of every strike
    above [F], in the order of the matrix, and nothing else: no put price
    and no entry for a strike equal to [F]. *)
Theorem median_table_no_strike_below (strike_matrix : list strike_row) (F : Qc) :
  strike_matrix ≠ [] → sorted_by_strike strike_matrix →
  (∀ r, r ∈ strike_matrix → ¬ strike r < F) →
  ∃ r0 rest,
    strike_matrix = r0 :: rest
    ∧ _get_median_price_table strike_matrix F
      = ([Warn F (strike r0)],
         inr ((λ r, (strike r, call r))
                <$> filter (λ r, F < strike r) strike_matrix, F))
    ∧ ∀ r, r ∈ strike_matrix → strike r0 ≤ strike r.
Proof.
  intros Hne Hs Hnone.
  destruct (_get_median_price_table_none_below strike_matrix F Hne Hnone)
    as (r0 & rest & -> & Hrun).
  exists r0, rest. split; [done|]. split.
  - rewrite Hrun. do 3 f_equal. apply sort_index_sorted.
    rewrite <- list_fmap_compose.
    apply (sorted_by_strike_strikes (filter (λ r, F < strike r) (r0 :: rest))).
    by apply sorted_by_strike_filter.
  - intros r [->|Hr]%elem_of_cons; [done|].
    apply StronglySorted_cons in Hs as [Hall _].
    rewrite Forall_forall in Hall. apply Qclt_le_weak. by apply Hall.
Qed.

(** The scenario matrix with [F = 2.3]: a warning, and the calls at 2.35 and
    2.4 only. *)
Lemma median_table_no_strike_below_witness :
  _get_median_price_table scenario_matrix (qc 23 10)
  = ([Warn (qc 23 10) (qc 23 10)],
     inr ([(qc 235 100, qc 942 10000); (qc 24 10, qc 735 10000)], qc 23 10)).
Proof.
  destruct (median_table_no_strike_below scenario_matrix (qc 23 10))
    as (r0 & rest & Heq & Hrun & _).
  - discriminate.
  - repeat constructor.
  - intros r Hr. unfold scenario_matrix in Hr.
    repeat (apply elem_of_cons in Hr as [->|Hr]); [compute_done..|].
    by apply elem_of_nil in Hr.
  - rewrite Hrun. injection Heq as <- _. compute_done.
Defined.

(** ** The rate resolver *)

(** X10. The resolver returns exactly when the curve is quoted at both
    day-counts: it then has printed nothing, and the pair it returns is the
    curve entry at the near-term day-count followed by the entry at the
    next-term day-count. *)
Theorem free_rate_returns (shibor_ser : gmap Z Qc) (near_term next_tern : Qc)
    (w : list event) (x y : Qc) :
  _get_free_rate shibor_ser near_term next_tern = (w, inr (x, y))
  ↔ w = []
    ∧ shibor_ser !! Z.max (py_round (near_term * Qc_of_Z 365)) 1 = Some x
    ∧ shibor_ser !! py_round (next_tern * Qc_of_Z 365) = Some y.
Proof.
  rewrite _get_free_rate_cases. unfold YEARS.
  destruct (shibor_ser !! Z.max _ 1) as [a|];
    destruct (shibor_ser !! py_round (next_tern * _)) as [b|];
    split; try (intros [= <- <- <-]; done); try (intros (_ & [=] & _); done);
    try (intros (_ & _ & [=]); done); try discriminate.
  intros (-> & [= ->] & [= ->]). done.
Qed.

Lemma Qfloor_bounds (x : Qc) :
  Qc_of_Z (Qfloor x) ≤ x ∧ x < Qc_of_Z (Qfloor x) + 1.
Proof.
  pose proof (Qfloor_le x) as Hle. pose proof (Qlt_floor x) as Hlt.
  rewrite inject_Z_plus in Hlt.
  set (f := Qfloor x) in *. clearbody f. split; qc2q.
  - exact Hle.
  - exact Hlt.
Qed.

(** [py_round x] is an integer nearest to [x]. *)
Lemma py_round_nearest (x : Qc) :
  x - qc 1 2 ≤ Qc_of_Z (py_round x) ≤ x + qc 1 2.
Proof.
  destruct (Qfloor_bounds x) as [Hle Hlt]. unfold py_round.
  set (f := Qfloor x) in *. clearbody f.
  assert (Qc_of_Z (f + 1) = Qc_of_Z f + 1) as Hplus.
  { by rewrite Z2Qc_inj_add, Z2Qc_inj_1. }
  destruct (Z.even f); repeat case_decide; rewrite ?Hplus;
    set (g := Qc_of_Z f) in *; clearbody g; split; qc2q; lra.
Qed.

(** X11. The rate of the next term is read at an integer day-count within
    half a day of [next_tern * 365], and the rate of the near term at a
    day-count of at least 1 that is 1 or within half a day of
    [near_term * 365]. *)
Theorem free_rate_day_counts (shibor_ser : gmap Z Qc) (near_term next_tern : Qc)
    (w : list event) (x y : Qc) :
  _get_free_rate shibor_ser near_term next_tern = (w, inr (x, y)) →
  ∃ d1 d2 : Z,
    shibor_ser !! d1 = Some x ∧ shibor_ser !! d2 = Some y
    ∧ (1 ≤ d1)%Z
    ∧ (d1 = 1%Z
       ∨ near_term * Qc_of_Z 365 - qc 1 2 ≤ Qc_of_Z d1
         ≤ near_term * Qc_of_Z 365 + qc 1 2)
    ∧ next_tern * Qc_of_Z 365 - qc 1 2 ≤ Qc_of_Z d2
      ≤ next_tern * Qc_of_Z 365 + qc 1 2.
Proof.
  rewrite _get_free_rate_cases. unfold YEARS.
  destruct (shibor_ser !! Z.max _ 1) as [a|] eqn:Ha; [|discriminate].
  destruct (shibor_ser !! py_round (next_tern * _)) as [b|] eqn:Hb;
    [|discriminate].
  intros [= <- <- <-]. eexists _, _. split; [exact Ha|]. split; [exact Hb|].
  split; [lia|]. split; [|apply py_round_nearest].
  destruct (Z.max_spec (py_round (near_term * Qc_of_Z 365)) 1) as [[_ ->]|[_ ->]].
  - by left.
  - right. apply py_round_nearest.
Qed.

(** With the curve quoted at 7 and 15 days, terms of 0.0192 and 0.0411
    years resolve to the two entries. *)
Lemma free_rate_day_counts_witness :
  ∃ d1 d2 : Z,
    ({[ 7%Z := qc 3 100; 15%Z := qc 4 100 ]} : gmap Z Qc) !! d1 = Some (qc 3 100)
    ∧ ({[ 7%Z := qc 3 100; 15%Z := qc 4 100 ]} : gmap Z Qc) !! d2
      = Some (qc 4 100)
    ∧ (1 ≤ d1)%Z
    ∧ (d1 = 1%Z
       ∨ qc 192 10000 * Qc_of_Z 365 - qc 1 2 ≤ Qc_of_Z d1
         ≤ qc 192 10000 * Qc_of_Z 365 + qc 1 2)
    ∧ qc 411 10000 * Qc_of_Z 365 - qc 1 2 ≤ Qc_of_Z d2
      ≤ qc 411 10000 * Qc_of_Z 365 + qc 1 2.
Proof.
  apply (free_rate_day_counts _ (qc 192 10000) (qc 411 10000) []).
  compute_done.
Defined.

(** ** The index blender at a 30-day term *)

(** X12. When one of the two terms is exactly 30 days and the other is not,
    the index is the square root of the variance of the 30-day term alone:
    the other term's variance and maturity drop out. *)
Theorem calc_vix_thirty_days (np_sqrt : Qc → Qc) (sigma1 sigma2 T : Qc) :
  T ≠ qc 30 365 →
  calc_vix np_sqrt sigma1 sigma2 (qc 30 365) T = np_sqrt sigma1
  ∧ calc_vix np_sqrt sigma1 sigma2 T (qc 30 365) = np_sqrt sigma2.
Proof.
  intros HT. unfold calc_vix, calc_weight, YEARS.
  assert (Qc_of_Z 30 / Qc_of_Z 365 = qc 30 365) as ->
    by (apply Qc_is_canon; reflexivity).
  assert (Qc_of_Z 365 / Qc_of_Z 30 = qc 365 30) as ->
    by (apply Qc_is_canon; reflexivity).
  assert (qc 30 365 * qc 365 30 = 1) as Hone
    by (apply Qc_is_canon; reflexivity).
  set (t := qc 30 365) in *. set (c := qc 365 30) in *. clearbody t c.
  assert (T - t ≠ 0) as Hne.
  { intros Heq. apply HT. replace T with ((T - t) + t) by ring.
    rewrite Heq. ring. }
  assert ((T - t) / (T - t) = 1) as -> by (by field).
  assert ((t - t) / (t - T) = 0) as -> by (unfold Qcdiv; ring).
  split; f_equal.
  - transitivity (sigma1 * (t * c)); [ring|]. rewrite Hone. ring.
  - transitivity (sigma2 * (t * c)); [ring|]. rewrite Hone. ring.
Qed.

(** A near term of exactly 30 days, the next one of 60 days. *)
Lemma calc_vix_thirty_days_witness :
  calc_vix sample_sqrt (qc 4 100) (qc 6 100) (qc 30 365) (qc 60 365)
  = sample_sqrt (qc 4 100).
Proof.
  apply (calc_vix_thirty_days sample_sqrt (qc 4 100) (qc 6 100) (qc 60 365)).
  discriminate.
Defined.

(** ** What [_get_sigma] returns *)

Lemma mapM_mret {A B} (f : A → M B) (g : A → B) (l : list A) :
  (∀ x, f x = mret (g x)) → mapM f l = mret (g <$> l).
Proof.
  intros Hf. induction l as [|x l IH]; [done|]. cbn [mapM].
  by rewrite Hf, M_bind_ret, IH, M_bind_ret.
Qed.

Lemma mapM_term_column (method : string) (df : list enriched) :
  lower method = "near" ∨ lower method = "next" →
  mapM (column (lower method +:+ "_maturity")) df
  = mret (term_column method <$> df).
Proof.
  intros Hvalid. apply mapM_mret. intros q. unfold term_column.
  destruct Hvalid as [Heq|Heq]; rewrite Heq; reflexivity.
Qed.

Lemma mapM_rate_column (method : string) (df : list enriched) :
  lower method = "near" ∨ lower method = "next" →
  mapM (column (lower method +:+ "_rate")) df
  = mret (rate_column method <$> df).
Proof.
  intros Hvalid. apply mapM_mret. intros q. unfold rate_column.
  destruct Hvalid as [Heq|Heq]; rewrite Heq; reflexivity.
Qed.

Lemma np_index_inr {A} (a : list A) (n : Z) w (x : A) :
  np_index a n = (w, inr x) → w = [].
Proof. destruct (np_index_cases a n) as [[y ->]| ->]; by intros [=]. Qed.

Lemma np_index_0_inr {A} (a : list A) w (x : A) :
  np_index a 0 = (w, inr x) → head a = Some x.
Proof.
  destruct a as [|y a]; [by rewrite np_index_nil|].
  intros [= _ ->]. reflexivity.
Qed.

Lemma _get_min_strike_diff_inr (m : list strike_row) w (row : strike_row) :
  _get_min_strike_diff m = (w, inr row) →
  w = [] ∧ row ∈ m
  ∧ ∀ r, r ∈ m → Qcabs.Qcabs (diff row) ≤ Qcabs.Qcabs (diff r).
Proof.
  destruct (decide (m = [])) as [->|Hne]; [discriminate|].
  destruct (_get_min_strike_diff_first m Hne)
    as (l1 & row' & l2 & -> & -> & H1 & H2).
  intros [= <- <-]. split; [done|].
  split; [apply elem_of_app; right; left|].
  intros r [Hr|[->|Hr]%elem_of_cons]%elem_of_app.
  - by apply Qclt_le_weak, H1.
  - done.
  - by apply H2.
Qed.

Lemma calc_delta_k_table_inr (s : list (Qc * Qc)) w (d : list (Qc * Qc)) :
  calc_delta_k_table s = (w, inr d) →
  w = [] ∧ (2 ≤ length s)%nat ∧ d.*1 = s.*1 ∧ length d = length s.
Proof.
  destruct (decide (2 ≤ length s)%nat) as [Hlen|Hshort].
  - destruct (delta_k_lookup s Hlen) as (d' & -> & Hk & Hl & _).
    by intros [= <- <-].
  - rewrite delta_k_short by lia. discriminate.
Qed.

Lemma calc_sigma_aligned (np_exp : Qc → Qc) (K_0 : Qc) (K delta_K Q_K : list Qc)
    (F R T : Qc) :
  length delta_K = length K → length Q_K = length K →
  calc_sigma np_exp K_0 K delta_K Q_K F R T
  = mret (sigma_formula np_exp K_0 K delta_K Q_K F R T).
Proof.
  intros Hd Hq. unfold calc_sigma, sigma_formula.
  rewrite broadcast_same_length by (rewrite length_fmap; done).
  rewrite M_bind_ret.
  rewrite broadcast_same_length
    by (rewrite length_fmap, length_zip_with, length_fmap; lia).
  rewrite M_bind_ret, np_sum_terms by done. reflexivity.
Qed.

(** The steps of a run of [_get_sigma] that returns. *)
Lemma _get_sigma_inv (np_exp : Qc → Qc) (df : list enriched) (method : string)
    (w : list event) (v : sigma_variable) :
  _get_sigma np_exp df (Some method) = (w, inr v) →
  ∃ matrix anchor q0,
    _build_strike_matrix (base <$> df) = mret matrix
    ∧ sv_strike_matrix v = dropna matrix
    ∧ _get_min_strike_diff (dropna matrix) = mret anchor
    ∧ head df = Some q0
    ∧ sv_term v = term_column method q0
    ∧ sv_term_rate v = rate_column method q0
    ∧ sv_F v = calc_F np_exp (strike anchor) (sv_term_rate v) (sv_term v)
                      (call anchor) (put anchor)
    ∧ _get_median_price_table (dropna matrix) (sv_F v)
      = (w, inr (sv_median_table v, sv_K0 v))
    ∧ calc_delta_k_table (sv_median_table v) = mret (sv_delta_k v)
    ∧ sv_sigma v
      = sigma_formula np_exp (sv_K0 v) (sv_median_table v).*1
          (sv_delta_k v).*2 (sv_median_table v).*2
          (sv_F v) (sv_term_rate v) (sv_term v).
Proof.
  intros Hrun.
  assert (lower method = "near" ∨ lower method = "next") as Hvalid.
  { unfold _get_sigma in Hrun.
    destruct (decide (lower method ∈ ["near"; "next"])) as [Hel|Hnel].
    - rewrite !elem_of_cons, elem_of_nil in Hel. tauto.
    - rewrite decide_True in Hrun by done. discriminate. }
  rewrite (_get_sigma_valid np_exp df method Hvalid) in Hrun.
  rewrite mapM_term_column, mapM_rate_column in Hrun by done.
  apply M_bind_inr in Hrun as (w1 & w1' & matrix & Hbuild & Hrun & ->).
  destruct (dropna_rows _ _ _ Hbuild) as (-> & _ & _).
  apply M_bind_inr in Hrun as (w2 & w2' & anchor & Hmin & Hrun & ->).
  destruct (_get_min_strike_diff_inr _ _ _ Hmin) as (-> & _ & _).
  rewrite M_bind_ret in Hrun.
  apply M_bind_inr in Hrun as (w3 & w3' & term & Hterm & Hrun & ->).
  pose proof (np_index_inr _ _ _ _ Hterm) as ->.
  apply np_index_0_inr in Hterm.
  rewrite M_bind_ret in Hrun.
  apply M_bind_inr in Hrun as (w4 & w4' & rate & Hrate & Hrun & ->).
  pose proof (np_index_inr _ _ _ _ Hrate) as ->.
  apply np_index_0_inr in Hrate.
  apply M_bind_inr in Hrun as (w5 & w5' & [tbl K_0] & Hmed & Hrun & ->).
  apply M_bind_inr in Hrun as (w6 & w6' & dk & Hdk & Hrun & ->).
  destruct (calc_delta_k_table_inr _ _ _ Hdk) as (-> & Hlen & Hkeys & Hl).
  rewrite calc_sigma_aligned in Hrun
    by (rewrite !length_fmap; done).
  rewrite M_bind_ret in Hrun. injection Hrun as <- <-. cbn.
  destruct df as [|q0 df]; [discriminate|].
  cbn in Hterm, Hrate. injection Hterm as <-. injection Hrate as <-.
  exists matrix, anchor, q0. rewrite !app_nil_r. cbn.
  repeat split; done.
Qed.

Lemma median_table_keys (m : list strike_row) (F : Qc) w (tbl : list (Qc * Qc))
    (K_0 : Qc) :
  sorted_by_strike m → m ≠ [] →
  _get_median_price_table m F = (w, inr (tbl, K_0)) →
  StronglySorted Qclt tbl.*1
  ∧ tbl.*1 ⊆ strike <$> m
  ∧ ((w = [] ∧ K_0 < F ∧ K_0 ∈ strike <$> m ∧ tbl.*1 = strike <$> m)
     ∨ (∃ r0, head m = Some r0 ∧ w = [Warn F (strike r0)] ∧ K_0 = F
              ∧ ∀ r, r ∈ m → F ≤ strike r)).
Proof.
  intros Hs Hne.
  destruct (decide (Exists (λ r, strike r < F) m)) as [Hex|Hnone].
  - apply Exists_exists in Hex.
    destruct (_get_median_price_table_below m F Hs Hex)
      as (l1 & row & l2 & Hfilter & _ & _ & ->).
    intros [= <- <- <-]. rewrite mid_quote_fst.
    assert (row ∈ filter (λ r, strike r < F) m) as Hin
      by (rewrite Hfilter; apply elem_of_app; right; left).
    apply list_elem_of_filter in Hin as [Hlt Hrow].
    split; [by apply sorted_by_strike_strikes|]. split; [done|].
    left. repeat split; [done|by apply list_elem_of_fmap_2].
  - assert (∀ r, r ∈ m → ¬ strike r < F) as Hnone'.
    { intros r Hr Hlt. apply Hnone, Exists_exists. eauto. }
    destruct (_get_median_price_table_none_below m F Hne Hnone')
      as (r0 & rest & -> & ->).
    intros [= <- <- <-].
    rewrite sort_index_sorted.
    2:{ rewrite <- list_fmap_compose.
        apply (sorted_by_strike_strikes (filter (λ r, F < strike r) (r0 :: rest))).
        by apply sorted_by_strike_filter. }
    rewrite <- list_fmap_compose.
    split; [|split].
    + apply (sorted_by_strike_strikes (filter (λ r, F < strike r) (r0 :: rest))).
      by apply sorted_by_strike_filter.
    + intros k (r & -> & [_ Hr]%list_elem_of_filter)%list_elem_of_fmap.
      by apply list_elem_of_fmap_2.
    + right. exists r0. repeat split.
      intros r Hr. apply Qcnot_lt_le. by apply Hnone'.
Qed.

(** X13. Whenever [_get_sigma] returns: the strike matrix has strictly
    ascending strikes and [diff = call - put] in every row; the forward
    price is [strike + e^(R*T) * (call - put)] at a row of least [|diff|],
    with [T] and [R] read from the first row of the table; and either
    nothing was printed and [K_0] is a strike of the matrix below [F], or
    one warning was emitted, [K_0 = F] and no strike lies below [F]. *)
Theorem get_sigma_forward_and_K0 (np_exp : Qc → Qc) (df : list enriched)
    (method : string) (w : list event) (v : sigma_variable) :
  _get_sigma np_exp df (Some method) = (w, inr v) →
  sorted_by_strike (sv_strike_matrix v)
  ∧ (∀ row, row ∈ sv_strike_matrix v → diff row = call row - put row)
  ∧ (∃ q0 anchor,
       head df = Some q0
       ∧ sv_term v = term_column method q0
       ∧ sv_term_rate v = rate_column method q0
       ∧ anchor ∈ sv_strike_matrix v
       ∧ (∀ r, r ∈ sv_strike_matrix v →
               Qcabs.Qcabs (diff anchor) ≤ Qcabs.Qcabs (diff r))
       ∧ sv_F v = strike anchor
                  + np_exp (sv_term_rate v * sv_term v)
                    * (call anchor - put anchor))
  ∧ ((w = [] ∧ sv_K0 v < sv_F v
      ∧ sv_K0 v ∈ strike <$> sv_strike_matrix v)
     ∨ (∃ r0, head (sv_strike_matrix v) = Some r0
              ∧ w = [Warn (sv_F v) (strike r0)] ∧ sv_K0 v = sv_F v
              ∧ ∀ r, r ∈ sv_strike_matrix v → sv_F v ≤ strike r)).
Proof.
  intros Hrun.
  destruct (_get_sigma_inv _ _ _ _ _ Hrun)
    as (matrix & anchor & q0 & Hbuild & Hm & Hmin & Hq0 & Hterm & Hrate & HF
        & Hmed & _ & _).
  destruct (dropna_rows _ _ _ Hbuild) as (_ & Hs & Hrows).
  destruct (_get_min_strike_diff_inr _ _ _ Hmin) as (_ & Hanchor & Hleast).
  rewrite Hm. split; [done|]. split; [intros row Hrow; by apply Hrows|].
  split.
  - exists q0, anchor. by rewrite <- Hm, HF, Hm.
  - destruct (median_table_keys _ _ _ _ _ Hs ltac:(by intros Hnil; rewrite Hnil in Hanchor; apply elem_of_nil in Hanchor) Hmed)
      as (_ & _ & [(-> & Hlt & HK & _)|(r0 & Hr0 & -> & HK & Hall)]).
    + left. done.
    + right. exists r0. done.
Qed.

(** X14. Whenever [_get_sigma] returns, the mid-quote table has at least two
    strikes, strictly ascending and all taken from the strike matrix; the
    weight table has the same index in the same order and positive weights;
    and sigma is the variance formula evaluated on the strikes, weights and
    mid-quotes of these two tables. *)
Theorem get_sigma_tables (np_exp : Qc → Qc) (df : list enriched)
    (method : string) (w : list event) (v : sigma_variable) :
  _get_sigma np_exp df (Some method) = (w, inr v) →
  (2 ≤ length (sv_median_table v))%nat
  ∧ StronglySorted Qclt (sv_median_table v).*1
  ∧ (sv_median_table v).*1 ⊆ strike <$> sv_strike_matrix v
  ∧ (sv_delta_k v).*1 = (sv_median_table v).*1
  ∧ Forall (λ x, 0 < x) (sv_delta_k v).*2
  ∧ sv_sigma v
    = sigma_formula np_exp (sv_K0 v) (sv_median_table v).*1
        (sv_delta_k v).*2 (sv_median_table v).*2
        (sv_F v) (sv_term_rate v) (sv_term v).
Proof.
  intros Hrun.
  destruct (_get_sigma_inv _ _ _ _ _ Hrun)
    as (matrix & anchor & q0 & Hbuild & Hm & Hmin & _ & _ & _ & _
        & Hmed & Hdk & Hsigma).
  destruct (dropna_rows _ _ _ Hbuild) as (_ & Hs & _).
  destruct (_get_min_strike_diff_inr _ _ _ Hmin) as (_ & Hanchor & _).
  destruct (median_table_keys _ _ _ _ _ Hs ltac:(by intros Hnil; rewrite Hnil in Hanchor; apply elem_of_nil in Hanchor) Hmed)
    as (Hsorted & Hsub & _).
  destruct (calc_delta_k_table_inr _ _ _ Hdk) as (_ & Hlen & Hkeys & _).
  rewrite Hm. repeat split; try done.
  by apply (delta_k_positive (sv_median_table v)).
Qed.

(** The near term of day 1: no warning, [K_0 = 2.3] below [F]. *)
Lemma get_sigma_forward_and_K0_witness :
  ∃ v, day1_near = ([], inr v)
       ∧ sorted_by_strike (sv_strike_matrix v)
       ∧ sv_K0 v < sv_F v
       ∧ sv_K0 v ∈ strike <$> sv_strike_matrix v.
Proof.
  assert (day1_near.1 = []) as Hw by (vm_compute; reflexivity).
  destruct day1_near as [w [e|v]] eqn:Hrun.
  { exfalso. clear Hw. vm_compute in Hrun. discriminate. }
  cbn in Hw. subst w. exists v. split; [reflexivity|].
  unfold day1_near in Hrun.
  destruct (get_sigma_forward_and_K0 _ _ _ _ _ Hrun)
    as (Hs & _ & _ & [(_ & Hlt & Hin)|(r0 & _ & Hwarn & _)]).
  - split; [exact Hs|]. split; [exact Hlt|exact Hin].
  - discriminate Hwarn.
Defined.

(** The near term of day 1: at least two mid-quotes, positive weights. *)
Lemma get_sigma_tables_witness :
  ∃ v, day1_near = ([], inr v)
       ∧ (2 ≤ length (sv_median_table v))%nat
       ∧ (sv_delta_k v).*1 = (sv_median_table v).*1
       ∧ Forall (λ x, 0 < x) (sv_delta_k v).*2
       ∧ sv_sigma v
         = sigma_formula sample_exp (sv_K0 v) (sv_median_table v).*1
             (sv_delta_k v).*2 (sv_median_table v).*2
             (sv_F v) (sv_term_rate v) (sv_term v).
Proof.
  assert (day1_near.1 = []) as Hw by (vm_compute; reflexivity).
  destruct day1_near as [w [e|v]] eqn:Hrun.
  { exfalso. clear Hw. vm_compute in Hrun. discriminate. }
  cbn in Hw. subst w. exists v. split; [reflexivity|].
  unfold day1_near in Hrun.
  destruct (get_sigma_tables _ _ _ _ _ Hrun)
    as (Hlen & _ & _ & Hk & Hpos & Hsig).
  split; [exact Hlen|]. split; [exact Hk|]. split; [exact Hpos|exact Hsig].
Defined.

(** ** A term with a single complete strike *)

Lemma median_table_returns (m : list strike_row) (F : Qc) :
  sorted_by_strike m → m ≠ [] →
  ∃ w tbl K_0, _get_median_price_table m F = (w, inr (tbl, K_0)).
Proof.
  intros Hs Hne.
  destruct (decide (Exists (λ r, strike r < F) m)) as [Hex|Hnone].
  - apply Exists_exists in Hex.
    destruct (_get_median_price_table_below m F Hs Hex)
      as (l1 & row & l2 & _ & _ & _ & ->). by eexists _, _, _.
  - assert (∀ r, r ∈ m → ¬ strike r < F) as Hnone'.
    { intros r Hr Hlt. apply Hnone, Exists_exists. eauto. }
    destruct (_get_median_price_table_none_below m F Hne Hnone')
      as (r0 & rest & _ & ->). by eexists _, _, _.
Qed.

Lemma M_bind_snd_raise {A B} (m : M A) (f : A → M B) w (a : A) (e : exn) :
  m = (w, inr a) → (f a).2 = inl e → (m ≫= f).2 = inl e.
Proof.
  intros -> Hf. unfold mbind, M_bind. destruct (f a) as [w' r].
  cbn in *. by subst.
Qed.

(** X15. A term whose strike matrix has a single row (one strike with both
    legs) never yields a variance: whatever the prices, the rate and the
    exponential, the mid-quote table has at most one strike and
    [_get_sigma] ends in the [IndexError] of the weight calculator. *)
Theorem get_sigma_single_strike (np_exp : Qc → Qc) (df : list enriched)
    (method : string) (matrix : list pivot_row) (r : strike_row) :
  lower method = "near" ∨ lower method = "next" →
  _build_strike_matrix (base <$> df) = mret matrix →
  dropna matrix = [r] →
  (_get_sigma np_exp df (Some method)).2 = inl IndexError.
Proof.
  intros Hvalid Hbuild Hdrop.
  rewrite (_get_sigma_valid np_exp df method Hvalid).
  rewrite Hbuild, M_bind_ret. cbn zeta. rewrite Hdrop.
  assert (_get_min_strike_diff [r] = mret r) as -> by reflexivity.
  rewrite M_bind_ret.
  rewrite mapM_term_column, mapM_rate_column by done. rewrite M_bind_ret.
  destruct df as [|q0 df].
  { unfold _build_strike_matrix in Hbuild. discriminate. }
  assert (∀ f : enriched → Qc, np_index (f <$> q0 :: df) 0 = mret (f q0))
    as Hidx by reflexivity.
  rewrite Hidx, !M_bind_ret, Hidx, M_bind_ret.
  set (F := calc_F _ _ _ _ _ _).
  assert (sorted_by_strike [r]) as Hs by repeat constructor.
  destruct (median_table_returns [r] F Hs ltac:(done)) as (w & tbl & K_0 & Hmed).
  eapply M_bind_snd_raise; [exact Hmed|]. cbn.
  destruct (median_table_keys _ _ _ _ _ Hs ltac:(done) Hmed)
    as (Hsorted & Hsub & _).
  rewrite delta_k_short; [done|].
  assert (length tbl.*1 ≤ 1)%nat as Hlen.
  { apply NoDup_all_equal_length.
    - clear -Hsorted. induction Hsorted as [|y l Hs IH Hall]; constructor;
        [|done].
      rewrite Forall_forall in Hall. intros Hy%Hall.
      by apply irreflexivity in Hy; [|apply _].
    - intros x y Hx%Hsub Hy%Hsub. cbn in Hx, Hy.
      apply list_elem_of_singleton in Hx, Hy. congruence. }
  rewrite length_fmap in Hlen.
  destruct tbl as [|p [|p' tbl]]; cbn in *; lia.
Qed.

(** Two calls and a put at the single strike 2.3. *)
Lemma get_sigma_single_strike_witness :
  (_get_sigma sample_exp (enrich (qc 3 100) (qc 5 100) <$> repeated_quotes)
              (Some "near")).2
  = inl IndexError.
Proof.
  assert ((_build_strike_matrix repeated_quotes).1 = []) as Hw
    by (vm_compute; reflexivity).
  assert (match (_build_strike_matrix repeated_quotes).2 with
          | inr m => dropna m
          | inl _ => []
          end = [ {| strike := qc 23 10; call := qc 12 100;
                     put := qc 8 100; diff := qc 4 100 |} ]) as Hd
    by compute_done.
  destruct (_build_strike_matrix repeated_quotes) as [w [e|matrix]] eqn:Hrun;
    [discriminate Hd|].
  cbn in Hw, Hd. subst w.
  eapply (get_sigma_single_strike sample_exp _ "near" matrix);
    [by left|exact Hrun|exact Hd].
Defined.

(** ** The term selector, whatever the index *)

Lemma np_index_elem_of {A} (a : list A) (n : Z) w (x : A) :
  np_index a n = (w, inr x) → w = [] ∧ x ∈ a.
Proof.
  unfold np_index. case_decide; [|discriminate].
  destruct (a !! _) as [y|] eqn:Hy; [|discriminate].
  intros [= <- <-]. split; [done|]. by eapply list_elem_of_lookup_2.
Qed.

(** A run of the selector that returns. *)
Lemma term_selector_inr (df : list quote) (n filter_num : Z) w (out : list quote) :
  _get_near_or_next_options df n filter_num = (w, inr out) →
  let survivors :=
    filter (λ q, Qc_of_Z filter_num / Qc_of_Z 365 ≤ maturity q) df in
  w = []
  ∧ ∃ v, np_index (np_sort (unique (maturity <$> survivors))) n = mret v
         ∧ v ∈ maturity <$> survivors
         ∧ out = filter (λ q, maturity q ≤ v) survivors.
Proof.
  intros Hrun. unfold _get_near_or_next_options, YEARS in Hrun. cbv zeta.
  set (survivors := filter _ df) in *.
  apply M_bind_inr in Hrun as (w1 & w2 & v & Hv & [= <- <-] & ->).
  destruct (np_index_elem_of _ _ _ _ Hv) as [-> Hin].
  rewrite elem_of_np_sort, elem_of_unique in Hin.
  split; [done|]. exists v. done.
Qed.

(** X16. Whenever the selector returns, for any index [n], it has printed
    nothing and its table is a non-empty sub-table of the input, in the
    input's order: every returned quote has a maturity of at least
    [filter_num/365], and a qualifying quote of the input whose maturity
    does not exceed that of a returned quote is returned too. *)
Theorem term_selector_output (df : list quote) (n filter_num : Z)
    (w : list event) (out : list quote) :
  _get_near_or_next_options df n filter_num = (w, inr out) →
  w = []
  ∧ out ≠ []
  ∧ out `sublist_of` df
  ∧ (∀ q, q ∈ out → Qc_of_Z filter_num / Qc_of_Z 365 ≤ maturity q)
  ∧ (∀ q q', q ∈ df → q' ∈ out →
       Qc_of_Z filter_num / Qc_of_Z 365 ≤ maturity q →
       maturity q ≤ maturity q' → q ∈ out).
Proof.
  intros Hrun.
  destruct (term_selector_inr _ _ _ _ _ Hrun) as (-> & v & _ & Hv & ->).
  split; [done|]. split; [|split; [|split]].
  - apply list_elem_of_fmap in Hv as (q & -> & Hq).
    intros Hnil. eapply (filter_nil_not_elem_of _ _ q Hnil); done.
  - etrans; apply sublist_filter.
  - by intros q [_ [? _]%list_elem_of_filter]%list_elem_of_filter.
  - intros q q' Hq [Hle' _]%list_elem_of_filter Hthr Hle.
    apply list_elem_of_filter. split; [by etrans|].
    by apply list_elem_of_filter.
Qed.

Lemma term_selector_output_witness :
  take 10 day1 ≠ [] ∧ take 10 day1 `sublist_of` day1
  ∧ ∀ q, q ∈ take 10 day1 → Qc_of_Z 7 / Qc_of_Z 365 ≤ maturity q.
Proof.
  destruct (term_selector_output day1 1 7 [] (take 10 day1))
    as (_ & Hne & Hsub & Hthr & _); [compute_done|done].
Defined.

(** X17. The selector is idempotent for an index counted from the front:
    applied to its own output with the same [n >= 0] and the same filter it
    returns that output unchanged. *)
Theorem term_selector_idempotent (df : list quote) (n : nat) (filter_num : Z)
    (w : list event) (out : list quote) :
  _get_near_or_next_options df (Z.of_nat n) filter_num = (w, inr out) →
  _get_near_or_next_options out (Z.of_nat n) filter_num = mret out.
Proof.
  intros Hrun.
  destruct (term_selector_inr _ _ _ _ _ Hrun) as (_ & v & Hidx & Hv & Hout).
  set (survivors := filter _ df) in *.
  assert (np_sort (unique (maturity <$> survivors)) !! n = Some v) as Hn.
  { unfold np_index in Hidx.
    rewrite (decide_False (P := (Z.of_nat n < 0)%Z)) in Hidx by lia.
    case_decide; [|discriminate]. rewrite Nat2Z.id in Hidx.
    destruct (_ !! n); by simplify_eq. }
  apply term_selector_sorted_maturities in Hn as [_ (below & Hnd & Hlen & Hbelow)].
  assert (filter (λ q, Qc_of_Z filter_num / Qc_of_Z 365 ≤ maturity q) out = out)
    as Hsurv.
  { apply filter_all. rewrite Hout.
    by intros q [_ [? _]%list_elem_of_filter]%list_elem_of_filter. }
  assert (∀ x, x ∈ maturity <$> out ↔ x ∈ maturity <$> survivors ∧ x ≤ v)
    as Hmat.
  { intros x. rewrite Hout, !list_elem_of_fmap. split.
    - intros (q & -> & [? ?]%list_elem_of_filter). eauto.
    - intros [(q & -> & Hq) Hle]. exists q. split; [done|].
      by apply list_elem_of_filter. }
  assert (nth_smallest_distinct (maturity <$> out) n v) as Hnth.
  { split; [by apply Hmat|]. exists below. do 2 (split; [done|]).
    intros x. rewrite Hbelow, Hmat. split; [|tauto].
    intros [? ?]. repeat split; [done| |done]. by apply Qclt_le_weak. }
  apply term_selector_sorted_maturities in Hnth.
  unfold _get_near_or_next_options, YEARS. rewrite Hsurv.
  rewrite (np_index_nat _ _ _ Hnth), M_bind_ret. f_equal. f_equal.
  apply filter_all. rewrite Hout. by intros q [? _]%list_elem_of_filter.
Qed.

Lemma term_selector_idempotent_witness :
  _get_near_or_next_options (take 10 day1) 1 7 = mret (take 10 day1).
Proof.
  apply (term_selector_idempotent day1 1 7 []). compute_done.
Defined.

(** ** The batch preparer: the rows of the prepared table *)

Lemma Qcmin_cases (x y : Qc) :
  (Qcmin x y = x ∧ x ≤ y) ∨ (Qcmin x y = y ∧ y ≤ x).
Proof.
  unfold Qcmin. case_decide as H; [by left|right].
  split; [done|]. by apply Qclt_le_weak, Qcnot_le_lt.
Qed.

Lemma Qcmax_cases (x y : Qc) :
  (Qcmax x y = y ∧ x ≤ y) ∨ (Qcmax x y = x ∧ y ≤ x).
Proof.
  unfold Qcmax. case_decide as H; [by left|right].
  split; [done|]. by apply Qclt_le_weak, Qcnot_le_lt.
Qed.

Lemma foldr_Qcmin_spec (y0 : Qc) (a : list Qc) :
  foldr Qcmin y0 a ∈ y0 :: a ∧ ∀ y, y ∈ y0 :: a → foldr Qcmin y0 a ≤ y.
Proof.
  induction a as [|z a [Hin Hle]]; cbn [foldr].
  - split; [left|]. intros y ->%list_elem_of_singleton. apply Qcle_refl.
  - destruct (Qcmin_cases z (foldr Qcmin y0 a)) as [[-> Hz]|[-> Hz]]; split.
    + right; left.
    + intros y Hy. apply elem_of_cons in Hy as [->|Hy].
      { eapply Qcle_trans; [exact Hz|]. apply Hle. left. }
      apply elem_of_cons in Hy as [->|Hy]; [apply Qcle_refl|].
      eapply Qcle_trans; [exact Hz|]. apply Hle. by right.
    + apply elem_of_cons in Hin as [->|Hin]; [left|right; by right].
    + intros y Hy. apply elem_of_cons in Hy as [->|Hy]; [apply Hle; left|].
      apply elem_of_cons in Hy as [->|Hy]; [exact Hz|].
      apply Hle. by right.
Qed.

Lemma foldr_Qcmax_spec (y0 : Qc) (a : list Qc) :
  foldr Qcmax y0 a ∈ y0 :: a ∧ ∀ y, y ∈ y0 :: a → y ≤ foldr Qcmax y0 a.
Proof.
  induction a as [|z a [Hin Hle]]; cbn [foldr].
  - split; [left|]. intros y ->%list_elem_of_singleton. apply Qcle_refl.
  - destruct (Qcmax_cases z (foldr Qcmax y0 a)) as [[-> Hz]|[-> Hz]]; split.
    + apply elem_of_cons in Hin as [->|Hin]; [left|right; by right].
    + intros y Hy. apply elem_of_cons in Hy as [->|Hy]; [apply Hle; left|].
      apply elem_of_cons in Hy as [->|Hy]; [exact Hz|].
      apply Hle. by right.
    + right; left.
    + intros y Hy. apply elem_of_cons in Hy as [->|Hy].
      { eapply Qcle_trans; [|exact Hz]. apply Hle. left. }
      apply elem_of_cons in Hy as [->|Hy]; [apply Qcle_refl|].
      eapply Qcle_trans; [|exact Hz]. apply Hle. by right.
Qed.

Lemma np_min_spec (a : list Qc) w (x : Qc) :
  np_min a = (w, inr x) → x ∈ a ∧ ∀ y, y ∈ a → x ≤ y.
Proof.
  intros (y0 & a' & -> & ->)%np_min_inr. apply foldr_Qcmin_spec.
Qed.

Lemma np_max_spec (a : list Qc) w (x : Qc) :
  np_max a = (w, inr x) → x ∈ a ∧ ∀ y, y ∈ a → y ≤ x.
Proof.
  intros (y0 & a' & -> & ->)%np_max_inr. apply foldr_Qcmax_spec.
Qed.

Lemma groupby_spec {A} (key : A → Z) (df : list A) :
  NoDup (groupby key df).*1
  ∧ ∀ g, g ∈ groupby key df → g.2 = filter (λ q, key q = g.1) df.
Proof.
  unfold groupby. split.
  - rewrite <- list_fmap_compose.
    erewrite list_fmap_ext; [rewrite list_fmap_id|by intros].
    rewrite merge_sort_Permutation. apply NoDup_unique.
  - by intros g (d & -> & _)%list_elem_of_fmap.
Qed.

(** Filtering the concatenated groups by the key of one group gives back
    that group. *)
Lemma filter_concat_none {A} (key : A → Z) (d : Z) (L : list (Z * list A))
    (groups : list (list A)) :
  Forall2 (λ g out, ∀ x, x ∈ out → key x = g.1) L groups →
  d ∉ L.*1 → filter (λ x, key x = d) (concat groups) = [].
Proof.
  induction 1 as [|g out L groups Hout _ IH]; [done|].
  rewrite fmap_cons, not_elem_of_cons. intros [Hne Hd].
  cbn [concat]. rewrite filter_app, IH by done.
  rewrite filter_none; [done|]. intros x Hx Hk. rewrite (Hout x Hx) in Hk. done.
Qed.

Lemma filter_concat_key {A} (key : A → Z) (L : list (Z * list A))
    (groups : list (list A)) (j : nat) (g : Z * list A) (out : list A) :
  Forall2 (λ g out, ∀ x, x ∈ out → key x = g.1) L groups →
  NoDup L.*1 → L !! j = Some g → groups !! j = Some out →
  filter (λ x, key x = g.1) (concat groups) = out.
Proof.
  intros HF. revert j.
  induction HF as [|g0 out0 L groups Hout HF IH]; intros j; [done|].
  rewrite fmap_cons, NoDup_cons. intros [Hg0 Hnd] HL Hgr.
  cbn [concat]. rewrite filter_app. destruct j as [|j]; simplify_eq/=.
  - rewrite (filter_concat_none key g.1 L groups HF Hg0), app_nil_r.
    by apply filter_all.
  - rewrite (IH j Hnd HL Hgr).
    rewrite filter_none; [done|]. intros x Hx Hk.
    rewrite (Hout x Hx) in Hk. apply Hg0. rewrite Hk.
    apply list_elem_of_fmap. exists g. split; [done|].
    by eapply list_elem_of_lookup_2.
Qed.

Lemma elem_of_concat {A} (x : A) (ls : list (list A)) :
  x ∈ concat ls ↔ ∃ l, x ∈ l ∧ l ∈ ls.
Proof.
  induction ls as [|l0 ls IH]; cbn [concat].
  - split; [by intros ?%elem_of_nil|]. by intros (l & _ & ?%elem_of_nil).
  - rewrite elem_of_app, IH. split.
    + intros [Hx|(l & Hx & Hl)]; [exists l0; split; [done|left]|].
      exists l. split; [done|by right].
    + intros (l & Hx & [->|Hl]%elem_of_cons); [by left|right; eauto].
Qed.

Lemma np_index_1_inr {A} (a : list A) w (x : A) :
  np_index a 1 = (w, inr x) → a !! 1%nat = Some x.
Proof.
  unfold np_index. rewrite (decide_False (P := (1 < 0)%Z)) by lia.
  case_decide; [|discriminate]. change (Z.to_nat 1) with 1%nat.
  destruct (a !! 1%nat); [|discriminate]. by intros [= _ ->].
Qed.

(** At [n = 1] the selector keeps the qualifying quotes of the two nearest
    qualifying terms. *)
Lemma term_selector_two_terms (df : list quote) (filter_num : Z) w
    (out : list quote) :
  _get_near_or_next_options df 1 filter_num = (w, inr out) →
  let survivors :=
    filter (λ q, Qc_of_Z filter_num / Qc_of_Z 365 ≤ maturity q) df in
  ∃ v0 v1,
    nth_smallest_distinct (maturity <$> survivors) 0 v0
    ∧ nth_smallest_distinct (maturity <$> survivors) 1 v1
    ∧ v0 < v1
    ∧ ∀ q, q ∈ out ↔ q ∈ survivors ∧ (maturity q = v0 ∨ maturity q = v1).
Proof.
  intros Hrun survivors.
  destruct (term_selector_inr _ _ _ _ _ Hrun) as (_ & v1 & Hv1 & _ & ->).
  fold survivors in Hv1 |- *. apply np_index_1_inr in Hv1.
  pose proof (term_selector_sorted_maturities survivors) as Hnth.
  pose proof (np_sort_unique_sorted (maturity <$> survivors)) as Hs.
  assert (∀ x, x ∈ np_sort (unique (maturity <$> survivors))
               ↔ x ∈ maturity <$> survivors) as Hel.
  { intros x. by rewrite elem_of_np_sort, elem_of_unique. }
  destruct (np_sort (unique (maturity <$> survivors))) as [|v0 [|v1' s]];
    [done..|].
  injection Hv1 as ->.
  apply StronglySorted_inv in Hs as [Hs Hall0].
  apply StronglySorted_inv in Hs as [_ Hall1].
  apply Forall_cons in Hall0 as [Hlt _].
  exists v0, v1. split; [by apply (Hnth 0%nat)|].
  split; [by apply (Hnth 1%nat)|]. split; [done|].
  intros q. rewrite list_elem_of_filter. split.
  - intros [Hle Hq]. split; [done|].
    assert (maturity q ∈ v0 :: v1 :: s) as Hin.
    { apply Hel. by apply list_elem_of_fmap_2. }
    apply elem_of_cons in Hin as [?|Hin]; [by left|].
    apply elem_of_cons in Hin as [?|Hin]; [by right|].
    rewrite Forall_forall in Hall1. apply Hall1 in Hin.
    by apply Qclt_not_le in Hin.
  - intros [Hq [->| ->]]; (split; [|done]).
    + by apply Qclt_le_weak.
    + apply Qcle_refl.
Qed.

Lemma prepare_data2calc_rows_inv (opt_data : list quote)
    (shibor_data : gmap Z (gmap Z Qc)) w (rows : list enriched) (row : enriched) :
  prepare_data2calc opt_data shibor_data = (w, inr rows) → row ∈ rows →
  let day := filter (λ q, Qc_of_Z 7 / Qc_of_Z 365 ≤ maturity q)
               (filter (λ q, date q = date (base row)) opt_data) in
  base row ∈ day
  ∧ nth_smallest_distinct (maturity <$> day) 0 (near_maturity row)
  ∧ nth_smallest_distinct (maturity <$> day) 1 (next_maturity row)
  ∧ near_maturity row < next_maturity row
  ∧ (maturity (base row) = near_maturity row
     ∨ maturity (base row) = next_maturity row).
Proof.
  unfold prepare_data2calc.
  intros (w1 & w1' & groups & Hgroups%mapM_inr & Hrun & _)%M_bind_inr Hrow.
  set (fod := concat groups) in *.
  set (mser := (λ g : Z * list quote, (g.1, unique (maturity <$> g.2)))
                 <$> groupby date fod) in *.
  apply M_bind_inr in Hrun as (w2 & w2' & sd & _ & Hrun & _).
  apply M_bind_inr in Hrun as (w3 & w3' & sel_rate & _ & Hrun & _).
  apply M_bind_inr in Hrun as (w4 & w4' & df & Hdf%mapM_inr & [= _ <-] & _).
  apply list_elem_of_bind in Hrow as (q & Hrow & Hq).
  destruct (list_find _ df) as [[i [d0 [[[a b] c] d]]]|] eqn:Hfind;
    [|by apply elem_of_nil in Hrow].
  cbn in Hrow. apply list_elem_of_singleton in Hrow as ->. cbn.
  apply list_find_Some in Hfind as (Hi & Hd0 & _). cbn in Hd0. subst d0.
  (* the row of [df] comes from an entry of [maturity_ser] *)
  destruct (Forall2_lookup_r _ _ _ _ _ Hdf Hi) as (m & Hm & w5 & Hentry).
  apply M_bind_inr in Hentry as (? & ? & rates & _ & Hentry & _).
  apply M_bind_inr in Hentry as (? & ? & a' & Ha & Hentry & _).
  apply M_bind_inr in Hentry as (? & ? & b' & Hb & Hentry & _).
  apply M_bind_inr in Hentry as (? & ? & c' & _ & Hentry & _).
  apply M_bind_inr in Hentry as (? & ? & d' & _ & [= _ Hdate <- <- <- <-] & _).
  apply list_elem_of_lookup_2 in Hm. subst mser.
  apply list_elem_of_fmap in Hm as (g' & -> & Hg'). cbn [fst snd] in *.
  destruct (groupby_spec date fod) as [_ Hfod].
  rewrite (Hfod _ Hg'), Hdate in Ha, Hb. clear Hfod Hg' Hdate g'.
  (* the selector's group that holds the quote *)
  destruct (groupby_spec date opt_data) as [Hnd Hopt].
  assert (Forall2 (λ (g : Z * list quote) out, ∀ x, x ∈ out → date x = g.1)
            (groupby date opt_data) groups) as Hkeys.
  { apply Forall2_same_length_lookup_2; [by eapply Forall2_length|].
    intros k g out Hg Hout y Hy.
    destruct (Forall2_lookup_lr _ _ _ _ _ _ Hgroups Hg Hout) as [w' Hsel].
    destruct (term_selector_inr _ _ _ _ _ Hsel) as (_ & v & _ & _ & ->).
    apply list_elem_of_filter in Hy as [_ Hy].
    apply list_elem_of_filter in Hy as [_ Hy].
    rewrite (Hopt g) in Hy by (by eapply list_elem_of_lookup_2).
    by apply list_elem_of_filter in Hy as [Hy _]. }
  subst fod. pose proof Hq as Hq'.
  apply elem_of_concat in Hq' as (out & Hqout & Hout).
  apply list_elem_of_lookup_1 in Hout as [j Hj].
  destruct (Forall2_lookup_r _ _ _ _ _ Hgroups Hj) as (g & Hg & w6 & Hsel).
  assert (date q = g.1) as Hqg.
  { eapply (Forall2_lookup_lr _ _ _ _ _ _ Hkeys Hg Hj). done. }
  rewrite Hqg in Ha, Hb |- *.
  rewrite (filter_concat_key date _ groups j g out Hkeys Hnd Hg Hj) in Ha, Hb.
  rewrite <- (Hopt g) by (by eapply list_elem_of_lookup_2).
  destruct (term_selector_two_terms _ _ _ _ Hsel)
    as (v0 & v1 & Hv0 & Hv1 & Hlt & Hmem).
  set (day := filter _ g.2) in *.
  assert (v0 ∈ maturity <$> out) as Hin0.
  { destruct Hv0 as [(q0 & -> & Hq0)%list_elem_of_fmap _].
    apply list_elem_of_fmap_2, Hmem. by split; [|left]. }
  assert (v1 ∈ maturity <$> out) as Hin1.
  { destruct Hv1 as [(q1 & -> & Hq1)%list_elem_of_fmap _].
    apply list_elem_of_fmap_2, Hmem. by split; [|right]. }
  apply np_min_spec in Ha as [Ha Hmin]. apply np_max_spec in Hb as [Hb Hmax].
  rewrite elem_of_unique in Ha, Hb.
  assert (a' = v0) as ->.
  { apply list_elem_of_fmap in Ha as (qa & -> & [_ [?|Heq]]%Hmem); [done|].
    specialize (Hmin v0). rewrite elem_of_unique, Heq in Hmin.
    by apply Hmin, Qcle_not_lt in Hin0. }
  assert (b' = v1) as ->.
  { apply list_elem_of_fmap in Hb as (qb & -> & [_ [Heq|?]]%Hmem); [|done].
    specialize (Hmax v1). rewrite elem_of_unique, Heq in Hmax.
    by apply Hmax, Qcle_not_lt in Hin1. }
  apply Hmem in Hqout as [Hqday Hmat]. done.
Qed.

Lemma groupby_keys {A} (key : A → Z) (df : list A) (d : Z) :
  d ∈ (groupby key df).*1 ↔ d ∈ key <$> df.
Proof.
  unfold groupby. rewrite <- list_fmap_compose.
  erewrite list_fmap_ext; [rewrite list_fmap_id|by intros].
  by rewrite merge_sort_Permutation, elem_of_unique.
Qed.

Lemma nth_smallest_distinct_unique (df : list quote) (n : nat) (v v' : Qc) :
  nth_smallest_distinct (maturity <$> df) n v →
  nth_smallest_distinct (maturity <$> df) n v' → v = v'.
Proof.
  intros H H'. apply term_selector_sorted_maturities in H, H'. congruence.
Qed.

(** Whenever the preparer returns, every quote that the selector kept and
    every quote of a day with a qualifying term is accounted for. *)
Lemma prepare_data2calc_complete_inv (opt_data : list quote)
    (shibor_data : gmap Z (gmap Z Qc)) w (rows : list enriched) (q : quote) :
  prepare_data2calc opt_data shibor_data = (w, inr rows) → q ∈ opt_data →
  let day := filter (λ x, Qc_of_Z 7 / Qc_of_Z 365 ≤ maturity x)
               (filter (λ x, date x = date q) opt_data) in
  ∃ v0 v1,
    nth_smallest_distinct (maturity <$> day) 0 v0
    ∧ nth_smallest_distinct (maturity <$> day) 1 v1
    ∧ (∃ row, row ∈ rows ∧ date (base row) = date q)
    ∧ (q ∈ day → maturity q = v0 ∨ maturity q = v1 → q ∈ base <$> rows).
Proof.
  unfold prepare_data2calc.
  intros (w1 & w1' & groups & Hgroups%mapM_inr & Hrun & _)%M_bind_inr Hq.
  set (fod := concat groups) in *.
  set (mser := (λ g : Z * list quote, (g.1, unique (maturity <$> g.2)))
                 <$> groupby date fod) in *.
  apply M_bind_inr in Hrun as (w2 & w2' & sd & _ & Hrun & _).
  apply M_bind_inr in Hrun as (w3 & w3' & sel_rate & _ & Hrun & _).
  apply M_bind_inr in Hrun as (w4 & w4' & df & Hdf%mapM_inr & [= _ <-] & _).
  (* every quote that the selector kept has a row *)
  assert (∀ q', q' ∈ fod →
            ∃ row, row ∈ (q ← fod;
               '(_, (_, (a, b, c, d))) ← option_list
                  (list_find (λ r : Z * (Qc * Qc * Qc * Qc), r.1 = date q) df);
               [ {| base := q; near_maturity := a; next_maturity := b;
                    near_rate := c; next_rate := d |} ])
                   ∧ base row = q') as Hrows.
  { intros q' Hq'.
    assert (date q' ∈ mser.*1) as Hd.
    { subst mser. rewrite <- list_fmap_compose.
      erewrite list_fmap_ext; [|by intros]. apply groupby_keys.
      by apply list_elem_of_fmap_2. }
    apply list_elem_of_fmap in Hd as (m & Hd & Hm).
    apply list_elem_of_lookup_1 in Hm as [i Hm].
    destruct (Forall2_lookup_l _ _ _ _ _ Hdf Hm) as (r & Hr & w5 & Hentry).
    apply M_bind_inr in Hentry as (? & ? & rates & _ & Hentry & _).
    apply M_bind_inr in Hentry as (? & ? & a' & _ & Hentry & _).
    apply M_bind_inr in Hentry as (? & ? & b' & _ & Hentry & _).
    apply M_bind_inr in Hentry as (? & ? & c' & _ & Hentry & _).
    apply M_bind_inr in Hentry as (? & ? & d' & _ & [= _ <-] & _).
    destruct (list_find_elem_of (λ r : Z * (Qc * Qc * Qc * Qc), r.1 = date q')
                df _ (list_elem_of_lookup_2 _ _ _ Hr) (eq_sym Hd))
      as [[k [d0 [[[a b] c] d]]] Hfind].
    exists {| base := q'; near_maturity := a; next_maturity := b;
              near_rate := c; next_rate := d |}.
    split; [|reflexivity].
    apply list_elem_of_bind. exists q'. split; [|done].
    rewrite Hfind. cbn. left. }
  (* the selector's group of the quote's day *)
  destruct (groupby_spec date opt_data) as [_ Hopt].
  assert (date q ∈ (groupby date opt_data).*1) as Hd.
  { apply groupby_keys. by apply list_elem_of_fmap_2. }
  apply list_elem_of_fmap in Hd as (g & Hqg & Hg).
  pose proof (Hopt g Hg) as Hg2.
  apply list_elem_of_lookup_1 in Hg as [j Hg].
  destruct (Forall2_lookup_l _ _ _ _ _ Hgroups Hg) as (out & Hj & w6 & Hsel).
  destruct (term_selector_two_terms _ _ _ _ Hsel)
    as (v0 & v1 & Hv0 & Hv1 & Hlt & Hmem).
  rewrite Hg2, <- Hqg in Hv0, Hv1, Hmem.
  assert (∀ x, x ∈ out → x ∈ fod) as Hfod.
  { intros x Hx. apply elem_of_concat. exists out. split; [done|].
    by eapply list_elem_of_lookup_2. }
  exists v0, v1. split; [done|]. split; [done|]. split.
  - destruct Hv0 as [(q0 & -> & Hq0)%list_elem_of_fmap _].
    assert (q0 ∈ out) as Hout by (apply Hmem; by split; [|left]).
    destruct (Hrows q0 (Hfod _ Hout)) as (row & Hrow & Hbase).
    exists row. split; [done|]. rewrite Hbase.
    apply list_elem_of_filter in Hq0 as [_ Hq0].
    by apply list_elem_of_filter in Hq0 as [Hq0 _].
  - intros Hday Hmat.
    assert (q ∈ out) as Hout by (by apply Hmem).
    destruct (Hrows q (Hfod _ Hout)) as (row & Hrow & Hbase).
    apply list_elem_of_fmap. by exists row.
Qed.

(** ** Registered properties of the preparer *)

(** X18. Whenever the preparer returns, every row of its table holds a
    quote of the input that expires at least 7/365 of a year ahead; the
    row's [near_maturity] is the smallest and its [next_maturity] the
    second smallest of the distinct qualifying maturities of the quote's
    day, so the near maturity is strictly below the next one; and the
    quote expires at one of the two. *)
Theorem prepare_data2calc_rows (opt_data : list quote)
    (shibor_data : gmap Z (gmap Z Qc)) (w : list event)
    (rows : list enriched) (row : enriched) :
  prepare_data2calc opt_data shibor_data = (w, inr rows) → row ∈ rows →
  let day := filter (λ q, Qc_of_Z 7 / Qc_of_Z 365 ≤ maturity q)
               (filter (λ q, date q = date (base row)) opt_data) in
  base row ∈ day
  ∧ nth_smallest_distinct (maturity <$> day) 0 (near_maturity row)
  ∧ nth_smallest_distinct (maturity <$> day) 1 (next_maturity row)
  ∧ near_maturity row < next_maturity row
  ∧ (maturity (base row) = near_maturity row
     ∨ maturity (base row) = next_maturity row).
Proof. apply prepare_data2calc_rows_inv. Qed.

Lemma prepare_data2calc_rows_witness :
  let day := filter (λ q, Qc_of_Z 7 / Qc_of_Z 365 ≤ maturity q)
               (filter (λ q, date q = date (base day1_row)) day1) in
  base day1_row ∈ day
  ∧ nth_smallest_distinct (maturity <$> day) 0 (near_maturity day1_row)
  ∧ nth_smallest_distinct (maturity <$> day) 1 (next_maturity day1_row)
  ∧ near_maturity day1_row < next_maturity day1_row
  ∧ (maturity (base day1_row) = near_maturity day1_row
     ∨ maturity (base day1_row) = next_maturity day1_row).
Proof.
  apply (prepare_data2calc_rows day1 {[ 1%Z := rising_curve ]} [] day1_table
           day1_row); compute_done.
Defined.

(** X19. Whenever the preparer returns, the day of every row has a curve in
    the rate table, the resolver returns a pair of rates on that curve for
    the row's two maturities, and the row carries that pair in ascending
    order: [near_rate] never exceeds [next_rate], whichever of the two
    terms the larger rate belongs to. *)
Theorem prepare_data2calc_rate_order (opt_data : list quote)
    (shibor_data : gmap Z (gmap Z Qc)) (w : list event)
    (rows : list enriched) (row : enriched) :
  prepare_data2calc opt_data shibor_data = (w, inr rows) → row ∈ rows →
  near_rate row ≤ next_rate row
  ∧ ∃ curve w' rn rx,
      shibor_data !! date (base row) = Some curve
      ∧ _get_free_rate curve (near_maturity row) (next_maturity row)
        = (w', inr (rn, rx))
      ∧ ((near_rate row = rn ∧ next_rate row = rx)
         ∨ (near_rate row = rx ∧ next_rate row = rn)).
Proof.
  intros Hrun Hrow.
  destruct (prepare_data2calc_rates _ _ _ _ _ Hrun Hrow)
    as (curve & w' & rn & rx & Hcurve & Hrate & -> & ->).
  split.
  - destruct (Qcmin_cases rx rn) as [[-> ?]|[-> ?]];
      destruct (Qcmax_cases rx rn) as [[-> ?]|[-> ?]];
      done || apply Qcle_refl.
  - exists curve, w', rn, rx. split; [done|]. split; [done|].
    destruct (Qcmin_cases rx rn) as [[Hmin Hle]|[Hmin Hle]];
      destruct (Qcmax_cases rx rn) as [[Hmax Hle']|[Hmax Hle']];
      rewrite Hmin, Hmax; auto.
    + right. split; [done|]. by apply Qcle_antisym.
    + left. split; [done|]. by apply Qcle_antisym.
Qed.

Lemma prepare_data2calc_rate_order_witness :
  near_rate day1_row ≤ next_rate day1_row
  ∧ ∃ curve w' rn rx,
      ({[ 1%Z := inverted_curve ]} : gmap Z (gmap Z Qc))
        !! date (base day1_row) = Some curve
      ∧ _get_free_rate curve (near_maturity day1_row) (next_maturity day1_row)
        = (w', inr (rn, rx))
      ∧ ((near_rate day1_row = rn ∧ next_rate day1_row = rx)
         ∨ (near_rate day1_row = rx ∧ next_rate day1_row = rn)).
Proof.
  apply (prepare_data2calc_rate_order day1 {[ 1%Z := inverted_curve ]} []
           day1_table day1_row); compute_done.
Defined.

(** X20. Whenever the preparer returns, every trading day of the input has
    at least two distinct maturities of 7/365 of a year or more and at
    least one row in the prepared table, and no quote of the two nearest
    qualifying terms is lost: a quote of the input that expires at least
    7/365 ahead, at the smallest or the second smallest qualifying maturity
    of its day, is the quote of some row. *)
Theorem prepare_data2calc_complete (opt_data : list quote)
    (shibor_data : gmap Z (gmap Z Qc)) (w : list event)
    (rows : list enriched) (q : quote) :
  prepare_data2calc opt_data shibor_data = (w, inr rows) → q ∈ opt_data →
  let day := filter (λ x, Qc_of_Z 7 / Qc_of_Z 365 ≤ maturity x)
               (filter (λ x, date x = date q) opt_data) in
  ∃ v0 v1,
    nth_smallest_distinct (maturity <$> day) 0 v0
    ∧ nth_smallest_distinct (maturity <$> day) 1 v1
    ∧ (∃ row, row ∈ rows ∧ date (base row) = date q)
    ∧ (q ∈ day → maturity q = v0 ∨ maturity q = v1 → q ∈ base <$> rows).
Proof. apply prepare_data2calc_complete_inv. Qed.

Lemma prepare_data2calc_complete_witness :
  let day := filter (λ x, Qc_of_Z 7 / Qc_of_Z 365 ≤ maturity x)
               (filter (λ x, date x = date (base day1_row)) day1) in
  ∃ v0 v1,
    nth_smallest_distinct (maturity <$> day) 0 v0
    ∧ nth_smallest_distinct (maturity <$> day) 1 v1
    ∧ (∃ row, row ∈ day1_table ∧ date (base row) = date (base day1_row))
    ∧ (base day1_row ∈ day →
       maturity (base day1_row) = v0 ∨ maturity (base day1_row) = v1 →
       base day1_row ∈ base <$> day1_table).
Proof.
  apply (prepare_data2calc_complete day1 {[ 1%Z := rising_curve ]} []
           day1_table (base day1_row)); compute_done.
Defined.

(** ** The at-the-money strike inside [_get_sigma] *)

Lemma stale_matrix_built :
  (m ← _build_strike_matrix (base <$> stale_rows); mret (dropna m))
  = mret stale_matrix.
Proof. compute_done. Qed.

Lemma stale_forward_price (np_exp : Qc → Qc) :
  1 + qc 3 100 * qc 10 365 ≤ np_exp (qc 3 100 * qc 10 365)
    ≤ 1 / (1 - qc 3 100 * qc 10 365) →
  qc 2302 1000
  < calc_F np_exp (qc 230 100) (qc 3 100) (qc 10 365) (qc 520 10000)
           (qc 500 10000)
  < qc 23021 10000.
Proof.
  intros [Hlo Hhi]. unfold calc_F.
  set (e := np_exp (qc 3 100 * qc 10 365)) in *. clearbody e.
  assert (1 / (1 - qc 3 100 * qc 10 365) = qc 3650 3647) as Hq
    by (apply Qc_is_canon; reflexivity).
  rewrite Hq in Hhi. clear Hq.
  split; qc2q; lra.
Qed.

(** With [F] between 2.302 and 2.3021 the synthesizer takes [K_0 = 2.25]
    on [stale_matrix]. *)
Lemma stale_median_table (F : Qc) :
  qc 2302 1000 < F < qc 23021 10000 →
  _get_median_price_table stale_matrix F
  = mret (mid_quote (qc 225 100) <$> stale_matrix, qc 225 100).
Proof.
  intros [Hlo Hhi].
  assert (sorted_by_strike stale_matrix) as Hs by repeat constructor.
  assert (strike stale_low < F) as Hlow.
  { cbn [strike stale_low]. revert Hlo. qc2q. lra. }
  destruct (_get_median_price_table_below stale_matrix F Hs)
    as (l1 & row & l2 & Hfilter & H1 & H2 & Hrun).
  { exists stale_low. split; [left|done]. }
  assert (∀ r, r ∈ filter (λ r, strike r < F) stale_matrix →
               diff row ≤ diff r) as Hmin.
  { intros r Hr. rewrite Hfilter in Hr.
    apply (first_min_least_strike diff l1 l2 row); [|done..].
    rewrite <- Hfilter. by apply sorted_by_strike_filter. }
  assert (row ∈ filter (λ r, strike r < F) stale_matrix) as Hrow
    by (rewrite Hfilter; apply elem_of_app; right; left).
  apply list_elem_of_filter in Hrow as [Hlt Hrow].
  assert (diff row ≤ diff stale_low) as Hle.
  { apply Hmin, list_elem_of_filter. split; [done|left]. }
  assert (row = stale_low) as ->.
  { unfold stale_matrix in Hrow.
    apply elem_of_cons in Hrow as [->|Hrow]; [done|].
    apply elem_of_cons in Hrow as [->|Hrow].
    { exfalso. revert Hle. compute_done. }
    apply list_elem_of_singleton in Hrow as ->.
    exfalso. cbn [strike stale_high] in Hlt. revert Hlt Hhi. qc2q. lra. }
  exact Hrun.
Qed.

(** C2, at the failing input.  The six quotes of [stale_quotes] make the
    strike matrix [stale_matrix]; for an exponential with
    [1 + x ≤ e^x ≤ 1/(1 - x)] at [x = R*T] (the bracket of
    [exp_bracket_Qc]) [_get_sigma] returns without a warning, with the
    forward price [F = 2.30 + e^(R*T) * 0.002] between 2.302 and 2.3021, and
    with [K_0 = 2.25]: the strike of least signed [diff] below [F].  The
    strike 2.30 is below [F] too and its [|diff|] (0.002) is the least among
    the strikes below [F]: it is the [K_0] of the claim, and 2.25 is not. *)
Theorem K0_skips_nearest_strike_below_F (np_exp : Qc → Qc) :
  1 + qc 3 100 * qc 10 365 ≤ np_exp (qc 3 100 * qc 10 365)
    ≤ 1 / (1 - qc 3 100 * qc 10 365) →
  ∃ v,
    _get_sigma np_exp stale_rows (Some "near") = mret v
    ∧ sv_strike_matrix v = stale_matrix
    ∧ sv_F v = calc_F np_exp (qc 230 100) (qc 3 100) (qc 10 365)
                      (qc 520 10000) (qc 500 10000)
    ∧ qc 2302 1000 < sv_F v < qc 23021 10000
    ∧ sv_K0 v = qc 225 100
    ∧ claimed_K0 stale_matrix (sv_F v) (qc 230 100)
    ∧ ¬ claimed_K0 stale_matrix (sv_F v) (qc 225 100).
Proof.
  intros Hexp.
  pose proof (stale_forward_price np_exp Hexp) as HF.
  set (F := calc_F np_exp (qc 230 100) (qc 3 100) (qc 10 365) (qc 520 10000)
                   (qc 500 10000)) in *.
  pose proof (stale_median_table F HF) as Hmed.
  assert (_get_min_strike_diff stale_matrix = mret stale_anchor) as Hmin
    by compute_done.
  assert (np_index (term_column "near" <$> stale_rows) 0 = mret (qc 10 365))
    as Hterm by compute_done.
  assert (np_index (rate_column "near" <$> stale_rows) 0 = mret (qc 3 100))
    as Hrate by compute_done.
  eexists. split; [|split; [|split; [|split; [|split; [|split]]]]].
  - rewrite _get_sigma_valid by (by left).
    rewrite mapM_term_column, mapM_rate_column by (by left).
    pose proof stale_matrix_built as Hb.
    apply M_bind_inr in Hb as (w1 & w2 & m & Hb & [= <- Hd] & Hw).
    symmetry in Hw. apply app_eq_nil in Hw as [-> _].
    rewrite Hb. change (([], inr m) : M (list pivot_row)) with (mret m : M _).
    rewrite M_bind_ret. cbv zeta. rewrite Hd, Hmin, !M_bind_ret.
    rewrite Hterm, !M_bind_ret, Hrate, M_bind_ret.
    change (calc_F np_exp (strike stale_anchor) (qc 3 100) (qc 10 365)
              (call stale_anchor) (put stale_anchor)) with F.
    rewrite Hmed, M_bind_ret. cbv beta iota.
    rewrite calc_delta_k_table_layout by (cbn; lia).
    cbv zeta. rewrite M_bind_ret.
    rewrite calc_sigma_aligned by (vm_compute; reflexivity).
    rewrite M_bind_ret. reflexivity.
  - reflexivity.
  - reflexivity.
  - exact HF.
  - reflexivity.
  - cbn [sv_F]. left. exists stale_anchor.
    split; [right; left|]. split; [reflexivity|].
    split; [destruct HF as [HF _]; revert HF; qc2q; lra|].
    intros r Hr _. unfold stale_matrix in Hr.
    apply elem_of_cons in Hr as [->|Hr]; [compute_done|].
    apply elem_of_cons in Hr as [->|Hr]; [compute_done|].
    apply list_elem_of_singleton in Hr as ->. compute_done.
  - cbn [sv_F]. intros [(row & Hrow & Hk & _ & Hleast)|[_ HK]].
    + destruct (Hleast stale_anchor) as [Hle _]; [right; left| |].
      { cbn [strike stale_anchor]. destruct HF as [HF _]. revert HF.
        qc2q. lra. }
      unfold stale_matrix in Hrow.
      apply elem_of_cons in Hrow as [->|Hrow];
        [revert Hle; compute_done|].
      apply elem_of_cons in Hrow as [->|Hrow]; [revert Hk; compute_done|].
      apply list_elem_of_singleton in Hrow as ->. revert Hk. compute_done.
    + destruct HF as [HF _]. rewrite <- HK in HF. revert HF. compute_done.
Qed.

(** The same run with the second-order Taylor polynomial as the
    exponential. *)
Lemma K0_skips_nearest_strike_below_F_witness :
  ∃ v,
    _get_sigma sample_exp stale_rows (Some "near") = mret v
    ∧ sv_strike_matrix v = stale_matrix
    ∧ sv_F v = calc_F sample_exp (qc 230 100) (qc 3 100) (qc 10 365)
                      (qc 520 10000) (qc 500 10000)
    ∧ qc 2302 1000 < sv_F v < qc 23021 10000
    ∧ sv_K0 v = qc 225 100
    ∧ claimed_K0 stale_matrix (sv_F v) (qc 230 100)
    ∧ ¬ claimed_K0 stale_matrix (sv_F v) (qc 225 100).
Proof.
  apply (K0_skips_nearest_strike_below_F sample_exp). split; compute_done.
Defined.
